(** * matchms: interpretation of unknown adduct strings

    A shallow embedding of
    [matchms/filtering/repair_adduct/interpret_unknown_adduct.py]
    and the properties of it that the specification states.

    Layout:
    - [Str]      Python strings as lists of characters;
    - [Re]       the fragment of Python's [re] module that the five
                 patterns of the file use, as a backtracking matcher;
    - [Py]       warnings, exceptions and the small monad threading them;
    - the functions of the source file, over an arithmetic interface
      [PyArith], and two instances of the interface: binary64
      ([float], what CPython computes with) and exact rationals ([Qc]);
    - closed forms of the parsing functions, and the lemmas that prove
      the code equal to them ([ReFacts], [PyFacts]);
    - the claims of the specification. *)

From Stdlib Require Import Ascii String ZArith List Bool Arith Lia.
From Stdlib Require Import Floats QArith Qcanon DecimalString.
Import ListNotations.
Close Scope Qc_scope.
Close Scope Q_scope.
Open Scope nat_scope.

Set Implicit Arguments.
Set Warnings "-inexact-float".

(* ================================================================= *)
(** ** Strings *)

Module Str.

(** A Python [str] is a sequence of characters.  The patterns of the
    source only ever distinguish ASCII characters ([[0-9]], [[a-zA-Z]],
    the brackets, the signs, [M] and the newline), every other character
    behaves alike; the 256 values of [ascii] are enough to exhibit
    every behaviour. *)
Definition str : Type := list ascii.

Definition py (s : string) : str := list_ascii_of_string s.
Arguments py s%_string.

Definition newline : ascii := "010"%char.

Definition code (c : ascii) : nat := nat_of_ascii c.

(** The class [[0-9]]. *)
Definition is_digit (c : ascii) : bool :=
  (48 <=? code c)%nat && (code c <=? 57)%nat.

(** The class [[0-9a-zA-Z]]. *)
Definition is_alnum (c : ascii) : bool :=
  is_digit c
  || ((97 <=? code c)%nat && (code c <=? 122)%nat)
  || ((65 <=? code c)%nat && (code c <=? 90)%nat).

(** The class [[+-]]. *)
Definition is_sign (c : ascii) : bool :=
  Ascii.eqb c "+"%char || Ascii.eqb c "-"%char.

(** [.] without the DOTALL flag: anything but a newline. *)
Definition is_dot (c : ascii) : bool := negb (Ascii.eqb c newline).

Definition is_char (a : ascii) (c : ascii) : bool := Ascii.eqb c a.
Arguments is_char a%_char c%_char.

Definition str_eqb (a b : str) : bool :=
  if list_eq_dec ascii_dec a b then true else false.

(** The longest prefix of [s] in the class [p], and what follows it. *)
Fixpoint take_while (p : ascii -> bool) (s : str) : str :=
  match s with
  | c :: s' => if p c then c :: take_while p s' else []
  | [] => []
  end.

Fixpoint drop_while (p : ascii -> bool) (s : str) : str :=
  match s with
  | c :: s' => if p c then drop_while p s' else s
  | [] => []
  end.

(** [x in s] for a one-character [x]. *)
Definition contains (a : ascii) (s : str) : bool := existsb (is_char a) s.

End Str.
Import Str.

(* ================================================================= *)
(** ** The regular expressions of the source *)

Module Re.

(** The constructs that occur in the five patterns.  Repetition is only
    ever applied to a character class in the source ([[0-9]?], [.*],
    [[0-9]+], [[0-9a-zA-Z]+]), so [Opt] and [Star] take a class. *)
Inductive regex : Type :=
| Chr (p : ascii -> bool)      (* a literal, a class, or [.] *)
| Bol                          (* [^] *)
| Eol                          (* [$] *)
| Seq (r1 r2 : regex)
| Alt (r1 r2 : regex)          (* [r1|r2], [r1] tried first *)
| Opt (p : ascii -> bool)      (* [p?], greedy *)
| Star (p : ascii -> bool)     (* [p*], greedy *)
| Group (r : regex).           (* a capturing group *)

Definition Plus (p : ascii -> bool) : regex := Seq (Chr p) (Star p).

(** A position of the matcher: the index in the subject, what is left of
    the subject from there, and the groups closed so far, in order. *)
Record mstate : Type := MState { pos : nat; rest : str; groups : list str }.

(** Greedy [p*] from position [i]: take as many characters as possible,
    give one back at a time while the continuation [k] fails. *)
Fixpoint star (p : ascii -> bool) (i : nat) (s : str) (g : list str)
         (k : mstate -> option mstate) : option mstate :=
  match s with
  | c :: s' =>
      if p c then
        match star p (S i) s' g k with
        | Some m => Some m
        | None => k (MState i s g)
        end
      else k (MState i s g)
  | [] => k (MState i s g)
  end.

(** The backtracking matcher, in continuation-passing style: [run r m k]
    matches [r] at [m] and hands the position after it to [k]; when [k]
    fails the next alternative of [r] is tried, as [re] does. *)
Fixpoint run (r : regex) (m : mstate) (k : mstate -> option mstate)
  : option mstate :=
  match r with
  | Chr p =>
      match rest m with
      | c :: s' => if p c then k (MState (S (pos m)) s' (groups m)) else None
      | [] => None
      end
  | Bol => if (pos m =? 0)%nat then k m else None
  | Eol =>
      (* end of the string, or just before a newline that ends it *)
      match rest m with
      | [] => k m
      | [c] => if Ascii.eqb c newline then k m else None
      | _ => None
      end
  | Seq r1 r2 => run r1 m (fun m' => run r2 m' k)
  | Alt r1 r2 =>
      match run r1 m k with
      | Some m' => Some m'
      | None => run r2 m k
      end
  | Opt p =>
      match rest m with
      | c :: s' =>
          if p c then
            match k (MState (S (pos m)) s' (groups m)) with
            | Some m' => Some m'
            | None => k m
            end
          else k m
      | [] => k m
      end
  | Star p => star p (pos m) (rest m) (groups m) k
  | Group r1 =>
      run r1 m (fun m' =>
        k (MState (pos m') (rest m')
                  (groups m' ++ [firstn (pos m' - pos m) (rest m)])))
  end.

(** One attempt at index [i], the subject from [i] on being [s]. *)
Definition match_at (r : regex) (i : nat) (s : str) : option mstate :=
  run r (MState i s []) Some.

(** [re.match(r, s)]: one attempt, at the start of [s]. *)
Definition re_match (r : regex) (s : str) : option (list str) :=
  option_map groups (match_at r 0 s).

(** The scan of [re.findall]: attempts from left to right; after a match
    that ends at [j] the next attempt is at [j].  [skip] counts the
    characters of the last match still to step over.  (Every pattern of
    the source consumes at least one character, so the special handling
    [re] has for empty matches never comes into play.) *)
Fixpoint scan (r : regex) (i : nat) (s : str) (skip : nat)
  : list (list str) :=
  match skip, s with
  | S n, _ :: s' => scan r (S i) s' n
  | S _, [] => []
  | O, [] =>
      match match_at r i [] with
      | Some m => [groups m]
      | None => []
      end
  | O, _ :: s' =>
      match match_at r i s with
      | Some m => groups m :: scan r (S i) s' (pos m - i - 1)
      | None => scan r (S i) s' 0
      end
  end.

(** [re.findall(r, s)] for a pattern with exactly one group: the list of
    what the group matched. *)
Definition findall (r : regex) (s : str) : list str :=
  map (fun g => nth 0 g []) (scan r 0 s 0).

End Re.

(** The five patterns, in the order they appear in the file. *)

(** The pattern of line 41: backslash-[, a group of [.*], backslash-]. *)
Definition re_brackets : Re.regex :=
  Re.Seq (Re.Chr (is_char "["))
         (Re.Seq (Re.Group (Re.Star is_dot)) (Re.Chr (is_char "]"))).

(** The pattern of line 47: [(?:^|[+-])], the group [([0-9]?M)],
    [(?:$|[+-])]. *)
Definition re_parent_mass : Re.regex :=
  Re.Seq (Re.Alt Re.Bol (Re.Chr is_sign))
         (Re.Seq (Re.Group (Re.Seq (Re.Opt is_digit) (Re.Chr (is_char "M"))))
                 (Re.Alt Re.Eol (Re.Chr is_sign))).

(** The pattern of line 56: the group [([+-][0-9a-zA-Z]+)]. *)
Definition re_ions : Re.regex :=
  Re.Group (Re.Seq (Re.Chr is_sign) (Re.Plus is_alnum)).

(** The pattern of line 65: [^], a group of [[0-9]+], a group of [.*]. *)
Definition re_number : Re.regex :=
  Re.Seq Re.Bol (Re.Seq (Re.Group (Re.Plus is_digit))
                        (Re.Group (Re.Star is_dot))).

(** The pattern of line 106: backslash-], the group [([0-9]?[+-])]. *)
Definition re_charge : Re.regex :=
  Re.Seq (Re.Chr (is_char "]"))
         (Re.Group (Re.Seq (Re.Opt is_digit) (Re.Chr is_sign))).


(* ================================================================= *)
(** ** Warnings, exceptions, and the monad that threads them *)

Module Py.

(** The exceptions the code of the file can raise. *)
Inductive exn : Type :=
| IndexError | ZeroDivisionError | AssertionError | ValueError
| OverflowError.

(** The calls of [logger.warning], one constructor per call site, with
    the values its f-string interpolates. *)
Inductive warning : Type :=
| Warn_brackets (adduct : str)                 (* line 43 *)
| Warn_parent_mass (n : nat) (adduct : str)    (* line 49 *)
| Warn_formula (ion : str)                     (* line 95 *)
| Warn_charge_count (n : nat) (adduct : str)   (* line 108 *)
| Warn_charge_length (charge : str).           (* line 118 *)

Inductive outcome (A : Type) : Type :=
| Ret (a : A)
| Raise (e : exn).
Arguments Raise {A} e.

(** A computation: the warnings it logged, in order, and how it ended. *)
Definition M (A : Type) : Type := (list warning * outcome A)%type.

Definition ret {A} (a : A) : M A := ([], Ret a).
Definition raise {A} (e : exn) : M A := ([], Raise e).
Definition warn (w : warning) : M unit := ([w], Ret tt).

Definition bind {A B} (m : M A) (f : A -> M B) : M B :=
  match m with
  | (l, Ret a) => let (l', r) := f a in (l ++ l', r)
  | (l, Raise e) => (l, Raise e)
  end.

Definition log {A} (m : M A) : list warning := fst m.
Definition result {A} (m : M A) : outcome A := snd m.

(** [xs[i]] *)
Definition index {A} (xs : list A) (i : nat) : M A :=
  match nth_error xs i with
  | Some x => ret x
  | None => raise IndexError
  end.

(** The bound CPython puts on the number of digits of a decimal string
    that [int] converts: [sys.int_info.default_max_str_digits], the
    value in force unless the interpreter is configured otherwise.
    Every digit counts, leading zeros too. *)
Definition int_max_str_digits : Z := 4300.

(** [int(s)] for a string: an optional sign and at least one digit, at
    most [int_max_str_digits] of them; anything else is a
    [ValueError].  ([int] also accepts surrounding white space and
    underscores between digits; the strings the file passes are made
    of the characters [[0-9+-]] only.) *)
Fixpoint digits_value (acc : Z) (s : str) : option Z :=
  match s with
  | [] => Some acc
  | c :: s' =>
      if is_digit c
      then digits_value (10 * acc + (Z.of_nat (code c) - 48)) s'
      else None
  end.

Definition unsigned_value (s : str) : option Z :=
  match s with
  | [] => None
  | _ :: _ =>
      if (Z.of_nat (length s) <=? int_max_str_digits)%Z
      then digits_value 0 s
      else None
  end.

Definition int_of_str (s : str) : M Z :=
  let v :=
    match s with
    | c :: s' =>
        if Ascii.eqb c "+"%char then unsigned_value s'
        else if Ascii.eqb c "-"%char then option_map Z.opp (unsigned_value s')
        else unsigned_value s
    | [] => None
    end in
  match v with
  | Some z => ret z
  | None => raise ValueError
  end.

(** [str(z)] for an int. *)
Definition str_of_int (z : Z) : str :=
  list_ascii_of_string (NilZero.string_of_int (Z.to_int z)).

End Py.
Import Py.

#[local] Notation "x <- m ;; f" := (bind m (fun x => f))
  (at level 61, m at next level, right associativity).
#[local] Notation "m ;;; f" := (bind m (fun _ => f))
  (at level 61, right associativity).

#[local] Notation "' pat <- m ;; f" :=
  (bind m (fun x => match x with pat => f end))
  (at level 61, pat pattern, m at next level, right associativity).

(* ================================================================= *)
(** ** The functions of [interpret_unknown_adduct.py] *)

(** What [split_ion] returns as [number]: the digits the pattern
    matched, a string, or the int literal [1]. *)
Inductive number : Type :=
| NumStr (s : str)
| NumInt (z : Z).

(** [str(number)] and [int(number)]. *)
Definition str_of_number (n : number) : str :=
  match n with
  | NumStr s => s
  | NumInt z => str_of_int z
  end.

Definition int_of_number (n : number) : M Z :=
  match n with
  | NumStr s => int_of_str s
  | NumInt z => ret z
  end.

Definition split_ion (ion : str) : M (ascii * number * str) :=
  match ion with
  | [] => raise IndexError                       (* ion[0] *)
  | sign :: ion =>
      if is_sign sign then
        match Re.re_match re_number ion with
        | Some g => ret (sign, NumStr (nth 0 g []), nth 1 g [])
        | None => ret (sign, NumInt 1, ion)
        end
      else raise AssertionError
  end.

(** The dict literal of [replace_abbreviations]. *)
Definition abbrev_to_formula : list (str * str) :=
  [ (py "ACN", py "CH3CN"); (py "DMSO", py "C2H6OS"); (py "FA", py "CH2O2");
    (py "HAc", py "CH3COOH"); (py "Hac", py "CH3COOH");
    (py "TFA", py "C2HF3O2"); (py "IsoProp", py "CH3CHOHCH3");
    (py "MeOH", py "CH3OH") ].

(** [d[key]] when [key in d]. *)
Definition dict_get (d : list (str * str)) (key : str) : option str :=
  option_map snd (find (fun kv => str_eqb (fst kv) key) d).

(** The loop of [replace_abbreviations], [corrected_ions] being the list
    appended to. *)
Fixpoint replace_abbreviations_loop (corrected_ions ions_split : list str)
  : M (list str) :=
  match ions_split with
  | [] => ret corrected_ions
  | ion :: ions_split =>
      '(sign, number, ion) <- split_ion ion ;;
      let ion :=
        match dict_get abbrev_to_formula ion with
        | Some formula => formula
        | None => ion
        end in
      replace_abbreviations_loop
        (corrected_ions ++ [sign :: str_of_number number ++ ion]) ions_split
  end.

Definition replace_abbreviations (ions_split : list str) : M (list str) :=
  replace_abbreviations_loop [] ions_split.

(** [get_ions_from_adduct], in its two halves.  Lines 40 to 45: the
    string the rest of the function works on, or [None] where the
    function returns [(None, None)] early. *)
Definition adduct_from_brackets (adduct : str) : M (option str) :=
  if contains "[" adduct then
    let ions_part := Re.findall re_brackets adduct in
    if negb (length ions_part =? 1) then
      warn (Warn_brackets adduct) ;;; ret None
    else
      adduct <- index ions_part 0 ;; ret (Some adduct)
  else ret (Some adduct).

(** Lines 47 to 58, [adduct] being the string [adduct_from_brackets]
    left. *)
Definition ions_from_content (adduct : str)
  : M (option Z * option (list str)) :=
  let parent_mass := Re.findall re_parent_mass adduct in
  (if negb (length parent_mass =? 1)
   then warn (Warn_parent_mass (length parent_mass) adduct)
   else ret tt) ;;;
  parent_mass <- index parent_mass 0 ;;
  parent_mass <-
    (if str_eqb parent_mass (py "M") then ret 1%Z
     else c <- index parent_mass 0 ;; int_of_str [c]) ;;
  let ions_split := Re.findall re_ions adduct in
  ions_split <- replace_abbreviations ions_split ;;
  ret (Some parent_mass, Some ions_split).

(** The function returns a pair, [(None, None)] or
    [(parent_mass, ions_split)]. *)
Definition get_ions_from_adduct (adduct : str)
  : M (option Z * option (list str)) :=
  adduct <- adduct_from_brackets adduct ;;
  match adduct with
  | None => ret (None, None)
  | Some adduct => ions_from_content adduct
  end.

Definition get_charge_of_adduct (adduct : str) : M (option Z) :=
  let charge := Re.findall re_charge adduct in
  if negb (length charge =? 1) then
    warn (Warn_charge_count (length charge) adduct) ;;; ret None
  else
    charge <- index charge 0 ;;
    if length charge =? 1 then
      let charge_size := py "1" in
      let charge_sign := charge in
      z <- int_of_str (charge_sign ++ charge_size) ;; ret (Some z)
    else if length charge =? 2 then
      charge_size <- index charge 0 ;;
      charge_sign <- index charge 1 ;;
      z <- int_of_str ([charge_sign] ++ [charge_size]) ;; ret (Some z)
    else
      warn (Warn_charge_length charge) ;;; ret None.

(** The arithmetic the file does on Python floats.  Ints that meet a
    float are converted first ([float_of_int]); an int too large for a
    float makes the conversion raise [OverflowError] ([fits_float] is
    false on it). *)
Class PyArith (F : Type) : Type := {
  float_of_int : Z -> F;
  fits_float : Z -> bool;
  fadd : F -> F -> F;
  fmul : F -> F -> F;
  fdiv : F -> F -> F
}.

Section Mass.

Context {F : Type} {arith : PyArith F}.

(** [Formula(ion).isotope.mass] of the library molmass: the mass, or
    [None] where the library raises [FormulaError]. *)
Variable Formula_mass : str -> option F.

(** The constant [ELECTRTON_MASS] of [matchms.constants]. *)
Variable ELECTRTON_MASS : F.

(** [number * atom_mass], an int times a float. *)
Definition int_times_float (number : Z) (atom_mass : F) : M F :=
  if fits_float number then ret (fmul (float_of_int number) atom_mass)
  else raise OverflowError.

(** The loop of [get_mass_of_ion].  [added_mass] starts as the int [0],
    which the first [+=] converts; with no ion the int [0] is returned
    and converted by the caller's addition.  Either way the float of
    [0] is what is added to, so [added_mass] is a float here from the
    start. *)
Fixpoint get_mass_of_ion_loop (added_mass : F) (ions : list str)
  : M (option F) :=
  match ions with
  | [] => ret (Some added_mass)
  | ion :: ions =>
      '(sign, number, ion) <- split_ion ion ;;
      match Formula_mass ion with
      | None => warn (Warn_formula ion) ;;; ret None
      | Some atom_mass =>
          n <- int_of_number number ;;
          let number := if Ascii.eqb sign "-"%char then (- n)%Z else n in
          x <- int_times_float number atom_mass ;;
          get_mass_of_ion_loop (fadd added_mass x) ions
      end
  end.

Definition get_mass_of_ion (ions : list str) : M (option F) :=
  get_mass_of_ion_loop (float_of_int 0) ions.

(** The entry point.  [charge] and [parent_mass] are single digits, the
    conversions of lines 26 to 29 cannot overflow; [1/abs(charge)]
    divides two ints, which raises on a zero divisor and otherwise is
    the rounded quotient. *)
Definition get_multiplier_and_mass_from_adduct (adduct : str)
  : M (option F * option F) :=
  charge <- get_charge_of_adduct adduct ;;
  match charge with
  | None => ret (None, None)
  | Some charge =>
      '(parent_mass, ions) <- get_ions_from_adduct adduct ;;
      match parent_mass, ions with
      | Some parent_mass, Some ions =>
          mass_of_ions <- get_mass_of_ion ions ;;
          match mass_of_ions with
          | None => ret (None, None)
          | Some mass_of_ions =>
              let added_mass :=
                fadd mass_of_ions
                     (fmul ELECTRTON_MASS (float_of_int (- charge))) in
              if (Z.abs charge =? 0)%Z then raise ZeroDivisionError
              else
                let multiplier :=
                  fmul (fdiv (float_of_int 1) (float_of_int (Z.abs charge)))
                       (float_of_int parent_mass) in
                let correction_mass :=
                  fdiv added_mass (float_of_int (Z.abs charge)) in
                ret (Some multiplier, Some correction_mass)
          end
      | _, _ => ret (None, None)
      end
  end.

End Mass.

(* ================================================================= *)
(** ** Two arithmetics *)

(** binary64, the arithmetic of CPython's [float]. *)
Definition binary64_of_int (z : Z) : spec_float :=
  binary_normalize prec emax z 0 false.

#[export] Instance binary64 : PyArith float := {
  float_of_int z := SF2Prim (binary64_of_int z);
  fits_float z :=
    match binary64_of_int z with
    | S754_infinity _ | S754_nan => false
    | _ => true
    end;
  fadd := PrimFloat.add;
  fmul := PrimFloat.mul;
  fdiv := PrimFloat.div
}.

(** Exact rationals: the same expressions without rounding. *)
#[export] Instance exact : PyArith Qc := {
  float_of_int z := Q2Qc (inject_Z z);
  fits_float _ := true;
  fadd := Qcplus;
  fmul := Qcmult;
  fdiv := Qcdiv
}.

(** A small mass table to run the functions on: monoisotopic masses of
    a few formulas, everything else unrecognised. *)
Definition sample_Formula_mass : str -> option float := fun ion =>
  if str_eqb ion (py "H") then Some 1.00782503223%float
  else if str_eqb ion (py "Na") then Some 22.989769282%float
  else if str_eqb ion (py "H2O") then Some 18.010564683%float
  else if str_eqb ion (py "CH2O2") then Some 46.005479302%float
  else if str_eqb ion (py "CH3CN") then Some 41.026549099%float
  else None.

Definition sample_ELECTRON_MASS : float := 0.00054857990907%float.

(* ================================================================= *)
(** ** Closed forms

    What the parsing functions compute, written without the monad and
    without the matcher; the lemmas below prove the code equal to
    them. *)

(** The value of a decimal digit. *)
Definition digit_value (d : ascii) : Z := Z.of_nat (code d) - 48.

(** The group of the charge pattern is a sign, or a digit and a sign. *)
Inductive charge_shape : str -> Prop :=
| charge_sign g : is_sign g = true -> charge_shape [g]
| charge_digit_sign d g :
    is_digit d = true -> is_sign g = true -> charge_shape [d; g].

(** The group of the parent-mass pattern is [M], or a digit and [M]. *)
Inductive parent_shape : str -> Prop :=
| parent_M : parent_shape (py "M")
| parent_digit_M d : is_digit d = true -> parent_shape [d; "M"%char].

(** The signed magnitude of a charge suffix: the magnitude is the digit,
    or 1 when there is none; the sign is the last character. *)
Definition charge_value (m : str) : Z :=
  match m with
  | [g] => if Ascii.eqb g "-"%char then (-1)%Z else 1%Z
  | [d; g] =>
      if Ascii.eqb g "-"%char then (- digit_value d)%Z else digit_value d
  | _ => 0%Z
  end.

(** The multiplier a parent-mass token stands for: its digit, or 1 for
    a bare [M]. *)
Definition parent_value (m : str) : Z :=
  match m with
  | [d; _] => digit_value d
  | _ => 1%Z
  end.

(** What [split_ion] finds after the sign: the count and the
    identifier. *)
Definition split_body (ion : str) : number * str :=
  match ion with
  | c :: s =>
      if is_digit c
      then (NumStr (c :: take_while is_digit s),
            take_while is_dot (drop_while is_digit s))
      else (NumInt 1, ion)
  | [] => (NumInt 1, [])
  end.

(** The identifier after the abbreviation table. *)
Definition expand (ident : str) : str :=
  match dict_get abbrev_to_formula ident with
  | Some formula => formula
  | None => ident
  end.

(** One token after [replace_abbreviations]. *)
Definition normalise_token (t : str) : str :=
  match t with
  | sign :: ion =>
      sign :: str_of_number (fst (split_body ion))
           ++ expand (snd (split_body ion))
  | [] => []
  end.

(** An ion token: a sign and a non-empty alphanumeric run, what the
    pattern of line 56 matches. *)
Definition ion_token (t : str) : bool :=
  match t with
  | c :: d :: s => is_sign c && is_alnum d && forallb is_alnum s
  | _ => false
  end.

(** The string the parsing works on (step 1 of the grammar): the
    content of the brackets when the bracket pattern matches once, the
    whole string when there is no opening bracket. *)
Definition working_substring (adduct : str) : option str :=
  if contains "[" adduct then
    match Re.findall re_brackets adduct with
    | [w] => Some w
    | _ => None
    end
  else Some adduct.

Definition starts_with_sign (t : str) : bool :=
  match t with
  | c :: _ => is_sign c
  | [] => false
  end.

(** The warning of line 49, when it is logged. *)
Definition parent_warning (w : str) : list warning :=
  match Re.findall re_parent_mass w with
  | [_] => []
  | l => [Warn_parent_mass (length l) w]
  end.

Section Finish.

Context {F : Type} {arith : PyArith F}.
Variable ELECTRTON_MASS : F.

(** Lines 26 to 30, from the charge, the parent multiplier and the mass
    of the ions. *)
Definition finish (charge parent_mass : Z) (mass_of_ions : F)
  : outcome (option F * option F) :=
  if (Z.abs charge =? 0)%Z then Raise ZeroDivisionError
  else
    Ret (Some (fmul (fdiv (float_of_int 1) (float_of_int (Z.abs charge)))
                    (float_of_int parent_mass)),
         Some (fdiv (fadd mass_of_ions
                          (fmul ELECTRTON_MASS (float_of_int (- charge))))
                    (float_of_int (Z.abs charge)))).

End Finish.

(** An identifier the pattern of [split_ion] leaves whole after a
    count: it does not start with a digit and holds no newline. *)
Definition plain_ident (ident : str) : bool :=
  match ident with
  | c :: _ => negb (is_digit c)
  | [] => true
  end && forallb is_dot ident.

(** A count as [split_ion] returns it for a token: the int [1], or a
    non-empty string of digits. *)
Definition plain_count (n : number) : bool :=
  match n with
  | NumInt z => (z =? 1)%Z
  | NumStr ds => negb (length ds =? 0) && forallb is_digit ds
  end.

(** The entry point on the sample table, in binary64. *)
Definition sample_run (adduct : str) : M (option float * option float) :=
  get_multiplier_and_mass_from_adduct
    sample_Formula_mass sample_ELECTRON_MASS adduct.

(** The identifier the mass of a normalised token is looked up by. *)
Definition token_formula (t : str) : str :=
  expand (snd (split_body (tl t))).

(** The int a count stands for: the decimal value of its digits, or
    the int itself. *)
Definition count_value (n : number) : Z :=
  match n with
  | NumStr ds =>
      match digits_value 0 ds with
      | Some z => z
      | None => 0%Z
      end
  | NumInt z => z
  end.

(** The factor line 101 multiplies the mass of a token by: its count,
    negated when the sign is a minus. *)
Definition signed_count (t : str) : Z :=
  match t with
  | sign :: body =>
      let n := count_value (fst (split_body body)) in
      if Ascii.eqb sign "-"%char then (- n)%Z else n
  | [] => 0%Z
  end.

(** The number of digits of the count a token has once normalised. *)
Definition count_length (t : str) : Z :=
  Z.of_nat (length (str_of_number (fst (split_body (tl t))))).

(** What follows the first [a] of a string, and what comes before the
    last one. *)
Fixpoint after_first (a : ascii) (s : str) : option str :=
  match s with
  | [] => None
  | c :: s' => if is_char a c then Some s' else after_first a s'
  end.

Fixpoint before_last (a : ascii) (s : str) : option str :=
  match s with
  | [] => None
  | c :: s' =>
      match before_last a s' with
      | Some b => Some (c :: b)
      | None => if is_char a c then Some [] else None
      end
  end.

(** What stands between the first opening bracket and the last
    closing bracket after it. *)
Definition bracket_content (s : str) : option str :=
  match after_first "[" s with
  | Some t => before_last "]" t
  | None => None
  end.

(** A token that carries its count: a digit follows the sign. *)
Definition has_count (t : str) : bool :=
  match t with
  | _ :: d :: _ => is_digit d
  | _ => false
  end.

(** The digits [p] and [a] for which [(1/a) * p] and [p / a] are not
    the same binary64 number. *)
Definition inexact_multiplier (p a : Z) : bool :=
  existsb (fun pa => (fst pa =? p)%Z && (snd pa =? a)%Z)
          [(5, 3); (7, 3); (3, 5); (6, 5); (7, 5); (5, 6); (7, 6); (5, 7);
           (9, 7); (7, 9)]%Z.

Section TokenMass.

Context {F : Type} {arith : PyArith F}.
Variable Formula_mass : str -> option F.

(** The mass a token is looked up to have, the float of 0 standing for
    an unrecognised one. *)
Definition token_mass (t : str) : F :=
  match Formula_mass (token_formula t) with
  | Some atom_mass => atom_mass
  | None => float_of_int 0
  end.

(** One turn of the sum of line 101. *)
Definition add_token (added_mass : F) (t : str) : F :=
  fadd added_mass (fmul (float_of_int (signed_count t)) (token_mass t)).

End TokenMass.

(* ================================================================= *)
(** ** What the patterns match *)

Lemma str_eqb_eq (a b : str) : str_eqb a b = true <-> a = b.
Proof.
  unfold str_eqb. destruct (list_eq_dec ascii_dec a b); split; congruence.
Qed.

Module ReFacts.

Import Re.

(** Every entry of a scan is the groups of a successful attempt. *)
Lemma scan_In (r : regex) (s : str) :
  forall i skip g, In g (scan r i s skip) ->
  exists j t m, match_at r j t = Some m /\ groups m = g.
Proof.
  induction s as [|c s IH]; intros i skip g Hin.
  - destruct skip; cbn in Hin; [|contradiction].
    destruct (match_at r i []) as [m|] eqn:E; [|contradiction].
    destruct Hin as [<-|[]]. now exists i, [], m.
  - destruct skip; cbn in Hin; [|now apply IH in Hin].
    destruct (match_at r i (c :: s)) as [m|] eqn:E.
    + destruct Hin as [<-|Hin]; [now exists i, (c :: s), m|now apply IH in Hin].
    + now apply IH in Hin.
Qed.

Lemma findall_In (r : regex) (s x : str) :
  In x (findall r s) ->
  exists j t m, match_at r j t = Some m /\ x = nth 0 (groups m) [].
Proof.
  unfold findall. rewrite in_map_iff. intros (g & <- & Hin).
  apply scan_In in Hin. destruct Hin as (j & t & m & Hm & <-).
  now exists j, t, m.
Qed.

#[local] Arguments Nat.sub : simpl never.

Lemma sub_1 (j : nat) : S (S j) - S j = 1.
Proof. lia. Qed.
Lemma sub_2 (j : nat) : S (S (S j)) - S j = 2.
Proof. lia. Qed.
Lemma sub_1' (j : nat) : S j - j = 1.
Proof. lia. Qed.
Lemma sub_2' (j : nat) : S (S j) - j = 2.
Proof. lia. Qed.

Ltac crunch :=
  repeat (cbn in *; rewrite ?sub_1, ?sub_2, ?sub_1', ?sub_2' in *;
    match goal with
    | H : Some _ = Some _ |- _ => inversion H; subst; clear H
    | H : None = Some _ |- _ => discriminate H
    | H : context [if ?b then _ else _] |- _ => destruct b eqn:?
    | H : context [match ?l with [] => _ | _ :: _ => _ end] |- _ =>
        destruct l
    end).

Lemma charge_match_shape (j : nat) (t : str) (m : mstate) :
  match_at re_charge j t = Some m ->
  charge_shape (nth 0 (groups m) []).
Proof.
  unfold match_at, re_charge. intros H. crunch; now constructor.
Qed.

Lemma is_char_eq (a c : ascii) : is_char a c = true -> c = a.
Proof. unfold is_char. now rewrite Ascii.eqb_eq. Qed.

Lemma parent_match_shape (j : nat) (t : str) (m : mstate) :
  match_at re_parent_mass j t = Some m ->
  parent_shape (nth 0 (groups m) []).
Proof.
  unfold match_at, re_parent_mass. intros H.
  crunch;
    repeat match goal with
    | H : is_char _ _ = true |- _ => apply is_char_eq in H; subst
    end; try (now constructor).
Qed.

(** Greedy repetition before a continuation that cannot fail takes the
    longest run. *)
Lemma star_total (p : ascii -> bool) (k : mstate -> option mstate) :
  (forall m, k m <> None) ->
  forall s i g,
    star p i s g k
    = k (MState (i + length (take_while p s)) (drop_while p s) g).
Proof.
  intros Hk. induction s as [|c s IH]; intros i g; cbn.
  - now rewrite Nat.add_0_r.
  - destruct (p c); cbn.
    + rewrite IH, Nat.add_succ_r.
      destruct (k _) eqn:E; [reflexivity|now apply Hk in E].
    + now rewrite Nat.add_0_r.
Qed.

Lemma firstn_take_while (p : ascii -> bool) (s : str) :
  firstn (length (take_while p s)) s = take_while p s.
Proof.
  induction s as [|c s IH]; cbn; [reflexivity|].
  destruct (p c); cbn; [now rewrite IH|reflexivity].
Qed.

Lemma take_while_all (p : ascii -> bool) (s : str) :
  forallb p (take_while p s) = true.
Proof.
  induction s as [|c s IH]; cbn; [reflexivity|].
  destruct (p c) eqn:E; cbn; [now rewrite E|reflexivity].
Qed.

Lemma take_drop_while (p : ascii -> bool) (s : str) :
  take_while p s ++ drop_while p s = s.
Proof.
  induction s as [|c s IH]; cbn; [reflexivity|].
  destruct (p c); cbn; [now rewrite IH|reflexivity].
Qed.

Lemma take_while_forallb (p : ascii -> bool) (s : str) :
  forallb p s = true -> take_while p s = s /\ drop_while p s = [].
Proof.
  induction s as [|c s IH]; cbn; [easy|].
  destruct (p c); cbn; [|discriminate].
  intros H. destruct (IH H) as [-> ->]. easy.
Qed.

(** The pattern of the ion tokens, solved: a sign, an alphanumeric
    character, and the longest alphanumeric run after it. *)
Lemma ions_match_at (j : nat) (t : str) :
  match_at re_ions j t =
  match t with
  | c :: d :: s =>
      if is_sign c && is_alnum d then
        Some (MState (S (S j) + length (take_while is_alnum s))
                     (drop_while is_alnum s)
                     [c :: d :: take_while is_alnum s])
      else None
  | _ => None
  end.
Proof.
  unfold match_at, re_ions, Plus.
  destruct t as [|c [|d s]]; cbn; try reflexivity.
  - now destruct (is_sign c).
  - destruct (is_sign c); cbn; [|reflexivity].
    destruct (is_alnum d); cbn; [|reflexivity].
    rewrite star_total by discriminate. cbn.
    replace (S (S (j + length (take_while is_alnum s))) - j)
      with (S (S (length (take_while is_alnum s)))) by lia.
    cbn. now rewrite firstn_take_while.
Qed.

(** The pattern of [split_ion], solved: the leading digits, and the
    rest of the line. *)
Lemma number_match (ion : str) :
  re_match re_number ion =
  match ion with
  | c :: s =>
      if is_digit c then
        Some [c :: take_while is_digit s;
              take_while is_dot (drop_while is_digit s)]
      else None
  | [] => None
  end.
Proof.
  unfold re_match, match_at, re_number, Plus.
  destruct ion as [|c s]; cbn; [reflexivity|].
  destruct (is_digit c); cbn; [|reflexivity].
  rewrite star_total.
  - cbn. rewrite star_total by discriminate. cbn.
    rewrite Nat.sub_0_r.
    replace (S (_ + _) - _)
      with (length (take_while is_dot (drop_while is_digit s))) by lia.
    cbn. now rewrite !firstn_take_while.
  - intros m. cbn. now rewrite star_total by discriminate.
Qed.

End ReFacts.

(* ================================================================= *)
(** ** What the parsing functions compute *)

Module PyFacts.

Import ReFacts.

#[local] Arguments is_digit : simpl never.
#[local] Arguments is_sign : simpl never.
#[local] Arguments is_alnum : simpl never.
#[local] Arguments digit_value : simpl never.

Lemma digit_not_sign (d : ascii) : is_digit d = true -> is_sign d = false.
Proof.
  intros H. unfold is_sign.
  destruct (Ascii.eqb d "+") eqn:E1.
  { apply Ascii.eqb_eq in E1. subst. discriminate H. }
  destruct (Ascii.eqb d "-") eqn:E2.
  { apply Ascii.eqb_eq in E2. subst. discriminate H. }
  reflexivity.
Qed.

Lemma digit_value_range (d : ascii) :
  is_digit d = true -> (0 <= digit_value d <= 9)%Z.
Proof.
  unfold is_digit, digit_value. rewrite andb_true_iff, !Nat.leb_le. lia.
Qed.

Lemma is_sign_cases (g : ascii) :
  is_sign g = true -> g = "+"%char \/ g = "-"%char.
Proof.
  unfold is_sign. rewrite orb_true_iff, !Ascii.eqb_eq. tauto.
Qed.

Lemma int_of_digit (d : ascii) :
  is_digit d = true -> int_of_str [d] = ret (digit_value d).
Proof.
  intros H. pose proof (digit_not_sign d H) as Hs.
  unfold is_sign in Hs. apply orb_false_iff in Hs. destruct Hs as [H1 H2].
  unfold int_of_str. rewrite H1, H2. cbn. now rewrite H.
Qed.

Lemma int_of_sign_digit (g d : ascii) :
  is_sign g = true -> is_digit d = true ->
  int_of_str [g; d]
  = ret (if Ascii.eqb g "-" then (- digit_value d)%Z else digit_value d).
Proof.
  intros Hg Hd.
  destruct (is_sign_cases g Hg); subst; unfold int_of_str; cbn; now rewrite Hd.
Qed.

Lemma findall_one_shape (r : Re.regex) (P : str -> Prop) :
  (forall j t m, Re.match_at r j t = Some m -> P (nth 0 (Re.groups m) [])) ->
  forall s x, In x (Re.findall r s) -> P x.
Proof.
  intros H s x Hin. apply findall_In in Hin.
  destruct Hin as (j & t & m & Hm & ->). eauto.
Qed.

Lemma findall_charge_shape (s x : str) :
  In x (Re.findall re_charge s) -> charge_shape x.
Proof. apply findall_one_shape. exact charge_match_shape. Qed.

Lemma findall_parent_shape (s x : str) :
  In x (Re.findall re_parent_mass s) -> parent_shape x.
Proof. apply findall_one_shape. exact parent_match_shape. Qed.

Lemma findall_ion_token (s x : str) :
  In x (Re.findall re_ions s) -> ion_token x = true.
Proof.
  revert s x. apply (findall_one_shape re_ions (fun x => ion_token x = true)).
  intros j t m. rewrite ions_match_at.
  destruct t as [|c [|d t]]; try discriminate.
  destruct (is_sign c && is_alnum d) eqn:E; [|discriminate].
  intros [= <-]. cbn. now rewrite E, take_while_all.
Qed.

(** [get_charge_of_adduct], solved. *)
Lemma get_charge_of_adduct_spec (adduct : str) :
  get_charge_of_adduct adduct =
  match Re.findall re_charge adduct with
  | [m] => ([], Ret (Some (charge_value m)))
  | ms => ([Warn_charge_count (length ms) adduct], Ret None)
  end.
Proof.
  unfold get_charge_of_adduct.
  destruct (Re.findall re_charge adduct) as [|m [|m' ms]] eqn:E;
    try reflexivity.
  assert (Hs : charge_shape m).
  { apply (findall_charge_shape adduct). rewrite E. now left. }
  destruct Hs as [g Hg|d g Hd Hg]; cbn.
  - destruct (is_sign_cases g Hg); subst; reflexivity.
  - rewrite (int_of_sign_digit g d Hg Hd). reflexivity.
Qed.

Lemma charge_value_range (m : str) :
  charge_shape m -> (-9 <= charge_value m <= 9)%Z.
Proof.
  intros [g Hg|d g Hd Hg]; cbn.
  - destruct (Ascii.eqb g "-"); lia.
  - pose proof (digit_value_range d Hd). destruct (Ascii.eqb g "-"); lia.
Qed.

(** [split_ion], solved. *)
Lemma split_ion_spec (sign : ascii) (ion : str) :
  split_ion (sign :: ion) =
  if is_sign sign
  then ret (sign, fst (split_body ion), snd (split_body ion))
  else raise AssertionError.
Proof.
  unfold split_ion, split_body. destruct (is_sign sign); [|reflexivity].
  rewrite number_match. destruct ion as [|c s]; [reflexivity|].
  now destruct (is_digit c).
Qed.

Lemma ion_token_sign (t : str) : ion_token t = true -> starts_with_sign t = true.
Proof.
  destruct t as [|c [|d s]]; cbn; try discriminate.
  rewrite !andb_true_iff. tauto.
Qed.

(** [replace_abbreviations] on tokens that start with a sign: no
    warning, no exception, every token normalised. *)
Lemma replace_abbreviations_loop_spec (ions acc : list str) :
  forallb starts_with_sign ions = true ->
  replace_abbreviations_loop acc ions
  = ret (acc ++ map normalise_token ions).
Proof.
  revert acc. induction ions as [|t ions IH]; intros acc H; cbn.
  - now rewrite app_nil_r.
  - cbn in H. apply andb_true_iff in H. destruct H as [Ht H].
    destruct t as [|c ion]; [discriminate|]. cbn in Ht.
    rewrite split_ion_spec, Ht. cbn.
    rewrite (IH _ H). cbn. now rewrite <- app_assoc.
Qed.

Lemma replace_abbreviations_spec (ions : list str) :
  forallb starts_with_sign ions = true ->
  replace_abbreviations ions = ret (map normalise_token ions).
Proof. apply replace_abbreviations_loop_spec. Qed.

(** One turn of the loop on a token that starts with a sign. *)
Lemma replace_abbreviations_loop_step
      (c : ascii) (body : str) (acc rest : list str) :
  is_sign c = true ->
  replace_abbreviations_loop acc ((c :: body) :: rest)
  = replace_abbreviations_loop (acc ++ [normalise_token (c :: body)]) rest.
Proof.
  intros Hc. cbn [replace_abbreviations_loop].
  rewrite split_ion_spec, Hc. unfold bind, ret.
  change (match dict_get abbrev_to_formula (snd (split_body body)) with
          | Some formula => formula
          | None => snd (split_body body)
          end) with (expand (snd (split_body body))).
  cbn [normalise_token app].
  now destruct (replace_abbreviations_loop _ rest).
Qed.

(** Two tokens with the same normal form can stand for each other
    anywhere in the list. *)
Lemma replace_abbreviations_loop_congr (t1 t2 : str) (pre post : list str) :
  starts_with_sign t1 = true -> starts_with_sign t2 = true ->
  normalise_token t1 = normalise_token t2 ->
  forall acc,
    replace_abbreviations_loop acc (pre ++ t1 :: post)
    = replace_abbreviations_loop acc (pre ++ t2 :: post).
Proof.
  intros H1 H2 Hn. induction pre as [|a pre IH]; intros acc.
  - destruct t1 as [|c1 b1]; [discriminate|].
    destruct t2 as [|c2 b2]; [discriminate|].
    cbn [app]. cbn in H1, H2.
    now rewrite !replace_abbreviations_loop_step, Hn by assumption.
  - cbn [app replace_abbreviations_loop]. unfold bind.
    destruct (split_ion a) as [l [[[sg n] i]|e]]; [|reflexivity].
    now rewrite IH.
Qed.

Lemma findall_ions_signs (w : str) :
  forallb starts_with_sign (Re.findall re_ions w) = true.
Proof.
  apply forallb_forall. intros x Hx.
  apply ion_token_sign. now apply findall_ion_token in Hx.
Qed.

(** The second half of [get_ions_from_adduct], solved. *)
Lemma ions_from_content_spec (w : str) :
  ions_from_content w =
  match Re.findall re_parent_mass w with
  | [] => ([Warn_parent_mass 0 w], Raise IndexError)
  | [m] =>
      ([], Ret (Some (parent_value m),
                Some (map normalise_token (Re.findall re_ions w))))
  | m :: ms =>
      ([Warn_parent_mass (length (m :: ms)) w],
       Ret (Some (parent_value m),
            Some (map normalise_token (Re.findall re_ions w))))
  end.
Proof.
  unfold ions_from_content.
  rewrite (replace_abbreviations_spec _ (findall_ions_signs w)).
  destruct (Re.findall re_parent_mass w) as [|m ms] eqn:E; [reflexivity|].
  assert (Hs : parent_shape m).
  { apply (findall_parent_shape w). rewrite E. now left. }
  destruct Hs as [|d Hd].
  - destruct ms; reflexivity.
  - assert (Hne : str_eqb [d; "M"%char] (py "M") = false).
    { destruct (str_eqb _ _) eqn:Eq; [|reflexivity].
      apply str_eqb_eq in Eq. discriminate Eq. }
    change (py "M") with ["M"%char] in Hne.
    destruct ms; cbn; rewrite Hne; cbn; rewrite (int_of_digit d Hd);
      reflexivity.
Qed.

(** The first half, solved. *)
Lemma adduct_from_brackets_spec (adduct : str) :
  adduct_from_brackets adduct =
  match working_substring adduct with
  | Some w => ([], Ret (Some w))
  | None => ([Warn_brackets adduct], Ret None)
  end.
Proof.
  unfold adduct_from_brackets, working_substring.
  destruct (contains "[" adduct); [|reflexivity].
  now destruct (Re.findall re_brackets adduct) as [|w [|w' ws]].
Qed.

Lemma get_ions_from_adduct_spec (adduct : str) :
  get_ions_from_adduct adduct =
  match working_substring adduct with
  | Some w => ions_from_content w
  | None => ([Warn_brackets adduct], Ret (None, None))
  end.
Proof.
  unfold get_ions_from_adduct. rewrite adduct_from_brackets_spec.
  destruct (working_substring adduct) as [w|]; [|reflexivity].
  cbn. now destruct (ions_from_content w).
Qed.

Lemma take_while_app (p : ascii -> bool) (a b : str) :
  forallb p a = true ->
  match b with c :: _ => p c = false | [] => True end ->
  take_while p (a ++ b) = a /\ drop_while p (a ++ b) = b.
Proof.
  intros Ha Hb. induction a as [|x a IH]; cbn.
  - destruct b as [|c b]; cbn; [easy|]. now rewrite Hb.
  - cbn in Ha. apply andb_true_iff in Ha. destruct Ha as [Hx Ha].
    rewrite Hx. destruct (IH Ha) as [-> ->]. easy.
Qed.

(** The pattern of [split_ion] on a count followed by an identifier
    gives back the two. *)
Lemma split_body_app (ds ident : str) :
  plain_count (NumStr ds) = true -> plain_ident ident = true ->
  split_body (ds ++ ident) = (NumStr ds, ident).
Proof.
  unfold plain_count, plain_ident. rewrite !andb_true_iff.
  intros [Hne Hds] [Hhd Hdot].
  destruct ds as [|c ds]; [discriminate|]. cbn in Hds.
  apply andb_true_iff in Hds. destruct Hds as [Hc Hds].
  cbn. rewrite Hc.
  destruct (take_while_app is_digit ds ident Hds) as [-> ->].
  - destruct ident as [|x ident]; [exact I|].
    now apply negb_true_iff in Hhd.
  - now destruct (take_while_forallb is_dot ident Hdot) as [-> _].
Qed.

Lemma is_alnum_dot (c : ascii) : is_alnum c = true -> is_dot c = true.
Proof.
  intros H. unfold is_dot. destruct (Ascii.eqb c newline) eqn:E; [|reflexivity].
  apply Ascii.eqb_eq in E. subst. discriminate H.
Qed.

Lemma forallb_alnum_dot (s : str) :
  forallb is_alnum s = true -> forallb is_dot s = true.
Proof.
  rewrite !forallb_forall. intros H x Hx. apply is_alnum_dot. auto.
Qed.

Lemma drop_while_head (p : ascii -> bool) (s : str) :
  match drop_while p s with c :: _ => p c = false | [] => True end.
Proof.
  induction s as [|c s IH]; cbn; [exact I|].
  destruct (p c) eqn:E; [exact IH|exact E].
Qed.

(** What [split_ion] finds in a token is a plain count and a plain
    identifier. *)
Lemma split_body_plain (body : str) :
  body <> [] -> forallb is_alnum body = true ->
  plain_count (fst (split_body body)) = true
  /\ plain_ident (snd (split_body body)) = true.
Proof.
  intros Hne Hal. destruct body as [|c s]; [congruence|]. cbn.
  destruct (is_digit c) eqn:Ec; cbn.
  - rewrite Ec, take_while_all. split; [reflexivity|].
    unfold plain_ident. rewrite take_while_all, andb_true_r.
    pose proof (drop_while_head is_digit s) as Hh.
    destruct (drop_while is_digit s) as [|x r]; [reflexivity|]. cbn.
    destruct (is_dot x); cbn; [now rewrite Hh|reflexivity].
  - split; [reflexivity|]. unfold plain_ident.
    now rewrite (forallb_alnum_dot _ Hal), Ec.
Qed.

Lemma dict_get_In (d : list (str * str)) (k f : str) :
  dict_get d k = Some f -> In (k, f) d.
Proof.
  unfold dict_get. destruct (find _ d) as [[k' f']|] eqn:E; [|discriminate].
  apply find_some in E. destruct E as [Hin Hk]. cbn in Hk.
  apply str_eqb_eq in Hk. subst. intros [= <-]. exact Hin.
Qed.

Lemma abbrev_formulas_plain :
  forallb (fun kv => plain_ident (snd kv)) abbrev_to_formula = true.
Proof. reflexivity. Qed.

Lemma expand_plain (ident : str) :
  plain_ident ident = true -> plain_ident (expand ident) = true.
Proof.
  intros H. unfold expand.
  destruct (dict_get abbrev_to_formula ident) as [f|] eqn:E; [|exact H].
  apply dict_get_In in E.
  pose proof abbrev_formulas_plain as Hall.
  rewrite forallb_forall in Hall. exact (Hall _ E).
Qed.

Lemma plain_count_str (n : number) :
  plain_count n = true -> plain_count (NumStr (str_of_number n)) = true.
Proof.
  destruct n as [ds|z]; cbn; [easy|].
  intros H. apply Z.eqb_eq in H. now subst.
Qed.

(** Splitting a normalised token again gives the sign, the count as a
    string, and the expanded identifier. *)
Lemma split_ion_normalised (sign : ascii) (body : str) :
  ion_token (sign :: body) = true ->
  split_ion (normalise_token (sign :: body))
  = ret (sign, NumStr (str_of_number (fst (split_body body))),
         expand (snd (split_body body))).
Proof.
  intros Ht. cbn [normalise_token]. rewrite split_ion_spec.
  assert (Hs : is_sign sign = true /\ body <> []
               /\ forallb is_alnum body = true).
  { destruct body as [|d s]; cbn in Ht; [discriminate|].
    rewrite !andb_true_iff in Ht. cbn [forallb]. rewrite andb_true_iff.
    repeat split; try tauto. discriminate. }
  destruct Hs as (Hs & Hne & Hal). rewrite Hs.
  destruct (split_body_plain Hne Hal) as [Hc Hi].
  rewrite split_body_app;
    [reflexivity|now apply plain_count_str|now apply expand_plain].
Qed.

Lemma int_of_number_str (n : number) :
  plain_count n = true ->
  int_of_number (NumStr (str_of_number n)) = int_of_number n.
Proof.
  destruct n as [ds|z]; cbn; [reflexivity|].
  intros H. apply Z.eqb_eq in H. now subst.
Qed.

Section Entry.

Context {F : Type} {arith : PyArith F}.
Variable Formula_mass : str -> option F.
Variable ELECTRTON_MASS : F.

(** The entry point, solved: every path of it, by what the patterns
    find. *)
Lemma get_multiplier_and_mass_from_adduct_spec (adduct : str) :
  get_multiplier_and_mass_from_adduct Formula_mass ELECTRTON_MASS adduct =
  match Re.findall re_charge adduct with
  | [m] =>
      match working_substring adduct with
      | None => ([Warn_brackets adduct], Ret (None, None))
      | Some w =>
          match Re.findall re_parent_mass w with
          | [] => ([Warn_parent_mass 0 w], Raise IndexError)
          | pm :: _ =>
              match get_mass_of_ion Formula_mass
                      (map normalise_token (Re.findall re_ions w)) with
              | (lm, Ret (Some sum)) =>
                  (parent_warning w ++ lm,
                   finish ELECTRTON_MASS (charge_value m) (parent_value pm) sum)
              | (lm, Ret None) => (parent_warning w ++ lm, Ret (None, None))
              | (lm, Raise e) => (parent_warning w ++ lm, Raise e)
              end
          end
      end
  | ms => ([Warn_charge_count (length ms) adduct], Ret (None, None))
  end.
Proof.
  unfold get_multiplier_and_mass_from_adduct.
  rewrite get_charge_of_adduct_spec.
  destruct (Re.findall re_charge adduct) as [|m [|m' ms]]; try reflexivity.
  cbn. rewrite get_ions_from_adduct_spec.
  destruct (working_substring adduct) as [w|]; [|reflexivity].
  rewrite ions_from_content_spec. unfold parent_warning, finish.
  destruct (Re.findall re_parent_mass w) as [|pm [|pm' pms]];
    try reflexivity; cbn;
    destruct (get_mass_of_ion _ _) as [lm [[sum|]|e]]; cbn;
    rewrite ?app_nil_r; try reflexivity;
    destruct (Z.abs (charge_value m) =? 0)%Z; cbn; rewrite ?app_nil_r;
    reflexivity.
Qed.

End Entry.

End PyFacts.

(* ================================================================= *)
(** ** The claims *)

Import PyFacts.

Lemma bind_ret_inv {A B} (m : M A) (f : A -> M B) (l : list warning) (b : B) :
  bind m f = (l, Ret b) ->
  exists l1 a l2, m = (l1, Ret a) /\ f a = (l2, Ret b) /\ l = l1 ++ l2.
Proof.
  destruct m as [l1 [a|e]]; cbn; [|discriminate].
  destruct (f a) as [l2 r] eqn:E. intros [= <- ->].
  now exists l1, a, l2.
Qed.

Section Claims.

Context {F : Type} {arith : PyArith F}.
Variable Formula_mass : str -> option F.
Variable ELECTRTON_MASS : F.

#[local] Notation "'entry'" :=
  (get_multiplier_and_mass_from_adduct Formula_mass ELECTRTON_MASS).

(** C1.  The entry point does raise on malformed adducts.  With no
    parent-mass token in the brackets, line 49 logs its warning and
    line 50 indexes the empty list of matches: [IndexError].  With a
    charge suffix whose digit is 0, line 28 divides by zero:
    [ZeroDivisionError].  Whatever the arithmetic and the mass table. *)
Theorem entry_raises_on_malformed_adduct :
  entry (py "[H]+") = ([Warn_parent_mass 0 (py "H")], Raise IndexError)
  /\ entry (py "[M]0+") = ([], Raise ZeroDivisionError).
Proof. split; reflexivity. Qed.

(** X12.  When the entry point returns, it returns two masses or the null
    pair, never one mass and one [None]. *)
Lemma entry_returns_pair_or_null
      (adduct : str) (l : list warning) (r : option F * option F) :
  entry adduct = (l, Ret r) ->
  r = (None, None) \/ exists mult corr, r = (Some mult, Some corr).
Proof.
  rewrite get_multiplier_and_mass_from_adduct_spec.
  destruct (Re.findall re_charge adduct) as [|m [|m' ms]];
    try (intros [= _ <-]; now left).
  destruct (working_substring adduct) as [w|]; [|intros [= _ <-]; now left].
  destruct (Re.findall re_parent_mass w) as [|pm pms]; [discriminate|].
  destruct (get_mass_of_ion _ _) as [lm [[sum|]|e]];
    [|intros [= _ <-]; now left|discriminate].
  unfold finish. destruct (Z.abs (charge_value m) =? 0)%Z; [discriminate|].
  intros [= _ <-]. right. eauto.
Qed.

Lemma digits_value_total (ds : str) :
  forallb is_digit ds = true ->
  forall acc, exists z, digits_value acc ds = Some z.
Proof.
  induction ds as [|d ds IH]; cbn; intros H acc; [now exists acc|].
  apply andb_true_iff in H. destruct H as [Hd H]. rewrite Hd. now apply IH.
Qed.

Lemma int_of_str_digits (ds : str) :
  plain_count (NumStr ds) = true ->
  int_of_str ds
  = if (Z.of_nat (length ds) <=? int_max_str_digits)%Z
    then ret (count_value (NumStr ds))
    else raise ValueError.
Proof.
  unfold plain_count. rewrite andb_true_iff. intros [Hne Hds].
  destruct ds as [|d ds]; [discriminate|].
  destruct (digits_value_total (d :: ds) Hds 0%Z) as [z Hz].
  cbn [count_value]. rewrite Hz.
  cbn [forallb] in Hds. apply andb_true_iff in Hds. destruct Hds as [Hd _].
  pose proof (digit_not_sign d Hd) as Hs.
  unfold is_sign in Hs. apply orb_false_iff in Hs. destruct Hs as [H1 H2].
  unfold int_of_str, unsigned_value. rewrite H1, H2.
  destruct (Z.of_nat (length (d :: ds)) <=? int_max_str_digits)%Z;
    [now rewrite Hz|reflexivity].
Qed.

(** [int(number)] on the count of a normalised token: its value, or
    [ValueError] when it has too many digits. *)
Lemma int_of_number_normalised (n : number) :
  plain_count n = true ->
  int_of_number (NumStr (str_of_number n))
  = if (Z.of_nat (length (str_of_number n)) <=? int_max_str_digits)%Z
    then ret (count_value n)
    else raise ValueError.
Proof.
  intros Hc. cbn [int_of_number].
  rewrite (int_of_str_digits _ (plain_count_str _ Hc)).
  destruct n as [ds|z]; [reflexivity|].
  cbn in Hc. apply Z.eqb_eq in Hc. now subst.
Qed.

(** On normalised tokens the mass loop raises in two cases only:
    [ValueError] at the conversion of lines 98 and 100, for a count of
    more digits than [int] takes, and [OverflowError] at the product
    of line 101, for a count too large for a float. *)
Lemma get_mass_of_ion_loop_raises (ions : list str) :
  forallb ion_token ions = true ->
  forall acc l e,
    get_mass_of_ion_loop Formula_mass acc (map normalise_token ions)
    = (l, Raise e) ->
    exists t,
      In t ions
      /\ ((e = ValueError /\ (int_max_str_digits < count_length t)%Z)
          \/ (e = OverflowError
              /\ (count_length t <= int_max_str_digits)%Z
              /\ fits_float (signed_count t) = false)).
Proof.
  induction ions as [|t ions IH]; intros Hall acc l e; [discriminate|].
  cbn in Hall. apply andb_true_iff in Hall. destruct Hall as [Ht Hall].
  destruct t as [|sign body]; [discriminate|].
  cbn [map get_mass_of_ion_loop]. rewrite (split_ion_normalised _ _ Ht).
  assert (Hc : plain_count (fst (split_body body)) = true).
  { destruct body as [|d b]; [discriminate|]. cbn in Ht.
    rewrite !andb_true_iff in Ht. apply split_body_plain; [discriminate|].
    cbn. rewrite andb_true_iff. tauto. }
  unfold bind at 1. unfold ret at 1.
  destruct (Formula_mass _) as [am|]; [|discriminate].
  rewrite (int_of_number_normalised _ Hc).
  destruct (Z.of_nat (length (str_of_number (fst (split_body body))))
            <=? int_max_str_digits)%Z eqn:El.
  - unfold bind at 1. unfold ret at 1. unfold int_times_float.
    change (if Ascii.eqb sign "-"
            then (- count_value (fst (split_body body)))%Z
            else count_value (fst (split_body body)))
      with (signed_count (sign :: body)).
    destruct (fits_float (signed_count (sign :: body))) eqn:Ef;
      unfold bind at 1; cbn.
    + destruct (get_mass_of_ion_loop _ _ _) as [l' r] eqn:E.
      intros [= _ ->]. destruct (IH Hall _ _ _ E) as (t & Hin & Ht').
      exists t. split; [now right|exact Ht'].
    + intros [= _ <-]. exists (sign :: body). split; [now left|].
      right. split; [reflexivity|]. split; [|exact Ef].
      unfold count_length. cbn [tl]. now apply Z.leb_le.
  - cbn. intros [= _ <-]. exists (sign :: body). split; [now left|].
    left. split; [reflexivity|].
    unfold count_length. cbn [tl]. now apply Z.leb_gt.
Qed.

(** X13.  The exceptions the entry point raises, and when: [IndexError]
    for want of a parent-mass token; [ZeroDivisionError] on a charge
    of 0; [ValueError] on an ion whose count has more digits than
    [int] takes; [OverflowError] on an ion whose count is too large
    for a float.  (The mass lookup is the one of the interface: it
    gives a mass or says the formula is unrecognised.) *)
Lemma entry_raise_cases (adduct : str) (l : list warning) (e : exn) :
  entry adduct = (l, Raise e) ->
  (e = IndexError
   /\ exists w, working_substring adduct = Some w
               /\ Re.findall re_parent_mass w = [])
  \/ (e = ZeroDivisionError
      /\ get_charge_of_adduct adduct = ([], Ret (Some 0%Z)))
  \/ (exists w t,
        working_substring adduct = Some w
        /\ In t (Re.findall re_ions w)
        /\ ((e = ValueError /\ (int_max_str_digits < count_length t)%Z)
            \/ (e = OverflowError
                /\ (count_length t <= int_max_str_digits)%Z
                /\ fits_float (signed_count t) = false))).
Proof.
  rewrite get_multiplier_and_mass_from_adduct_spec.
  rewrite get_charge_of_adduct_spec.
  destruct (Re.findall re_charge adduct) as [|m [|m' ms]]; try discriminate.
  destruct (working_substring adduct) as [w|]; [|discriminate].
  destruct (Re.findall re_parent_mass w) as [|pm pms] eqn:Ep.
  { intros [= _ <-]. left. split; [reflexivity|]. now exists w. }
  destruct (get_mass_of_ion _ _) as [lm [[sum|]|e']] eqn:E; [|discriminate|].
  - unfold finish.
    destruct (Z.abs (charge_value m) =? 0)%Z eqn:Ez; [|discriminate].
    intros [= _ <-]. right. left. split; [reflexivity|].
    apply Z.eqb_eq in Ez. now replace (charge_value m) with 0%Z by lia.
  - intros [= _ <-]. right. right.
    apply get_mass_of_ion_loop_raises in E.
    + destruct E as (t & Hin & Ht). now exists w, t.
    + apply forallb_forall. intros x Hx. now apply findall_ion_token in Hx.
Qed.

(** C3.  When the parent-mass token matches zero times the warning is
    logged and the parsing then fails: indexing the empty list of
    matches raises [IndexError]. *)
Theorem parent_mass_zero_matches_raises :
  Re.findall re_parent_mass (py "H") = []
  /\ get_ions_from_adduct (py "H")
     = ([Warn_parent_mass 0 (py "H")], Raise IndexError)
  /\ get_ions_from_adduct (py "[H]+")
     = ([Warn_parent_mass 0 (py "H")], Raise IndexError).
Proof. repeat split; reflexivity. Qed.

(** X15.  With two matches or more the warning is logged and the first match
    is used. *)
Lemma parent_mass_first_match_used (adduct w m : str) (ms : list str) :
  working_substring adduct = Some w ->
  Re.findall re_parent_mass w = m :: ms ->
  ms <> [] ->
  get_ions_from_adduct adduct
  = ([Warn_parent_mass (length (m :: ms)) w],
     Ret (Some (parent_value m),
          Some (map normalise_token (Re.findall re_ions w)))).
Proof.
  intros Hw Hm Hms. rewrite get_ions_from_adduct_spec, Hw.
  rewrite ions_from_content_spec, Hm.
  destruct ms; [congruence|reflexivity].
Qed.

(** C5.  The charge pattern takes any digit, 0 included: the charge of
    a suffix 0+ is extracted as 0, and the division of line 28 raises
    [ZeroDivisionError]. *)
Theorem zero_charge_divides_by_zero :
  get_charge_of_adduct (py "[M]0+") = ([], Ret (Some 0%Z))
  /\ result (entry (py "[M]0+")) = Raise ZeroDivisionError.
Proof. split; reflexivity. Qed.

(** C7.  An adduct whose only ion is unrecognised, and which has no
    parent-mass token: the entry point raises [IndexError] before any
    mass is looked up, it does not return the null pair. *)
Theorem unrecognised_ion_without_parent_raises :
  working_substring (py "[+Qx]+") = Some (py "+Qx")
  /\ Re.findall re_ions (py "+Qx") = [py "+Qx"]
  /\ token_formula (py "+Qx") = py "Qx"
  /\ entry (py "[+Qx]+")
     = ([Warn_parent_mass 0 (py "+Qx")], Raise IndexError).
Proof. repeat split; reflexivity. Qed.

(** The mass loop on normalised tokens never returns a sum when one of
    the identifiers is unrecognised. *)
Lemma get_mass_of_ion_loop_all_or_nothing (ions : list str) :
  forallb ion_token ions = true ->
  (exists t, In t ions /\ Formula_mass (token_formula t) = None) ->
  forall acc l sum,
    get_mass_of_ion_loop Formula_mass acc (map normalise_token ions)
    <> (l, Ret (Some sum)).
Proof.
  induction ions as [|t ions IH]; intros Hall (t0 & Hin & Hbad) acc l sum.
  { destruct Hin. }
  cbn in Hall. apply andb_true_iff in Hall. destruct Hall as [Ht Hall].
  destruct t as [|sign body]; [discriminate|].
  cbn [map get_mass_of_ion_loop]. rewrite (split_ion_normalised _ _ Ht).
  intros H. apply bind_ret_inv in H.
  destruct H as (l1 & [[s n] ident] & l2 & [= <- <- <- <-] & H & _).
  destruct (Formula_mass (expand (snd (split_body body)))) as [am|] eqn:E.
  - apply bind_ret_inv in H. destruct H as (l3 & z & l4 & _ & H & _).
    apply bind_ret_inv in H. destruct H as (l5 & x & l6 & _ & H & _).
    apply IH in H; [exact H|exact Hall|].
    destruct Hin as [<-|Hin]; [|now exists t0].
    unfold token_formula in Hbad. cbn in Hbad. congruence.
  - apply bind_ret_inv in H. destruct H as (l3 & z & l4 & _ & H & _).
    discriminate H.
Qed.

(** X14.  Hence the entry point never returns a pair of masses for an adduct
    one of whose ions is unrecognised: when it returns, it returns the
    null pair. *)
Lemma unrecognised_ion_never_resolves (adduct w t : str) :
  working_substring adduct = Some w ->
  In t (Re.findall re_ions w) ->
  Formula_mass (token_formula t) = None ->
  forall l r, entry adduct = (l, Ret r) -> r = (None, None).
Proof.
  intros Hw Hin Hbad l r.
  rewrite get_multiplier_and_mass_from_adduct_spec, Hw.
  destruct (Re.findall re_charge adduct) as [|m [|m' ms]];
    try (now intros [= _ <-]).
  destruct (Re.findall re_parent_mass w) as [|pm pms]; [discriminate|].
  destruct (get_mass_of_ion _ _) as [lm [[sum|]|e]] eqn:E;
    [|now intros [= _ <-]|discriminate].
  exfalso. revert E. apply get_mass_of_ion_loop_all_or_nothing.
  - apply forallb_forall. intros x Hx. now apply findall_ion_token in Hx.
  - now exists t.
Qed.

(** What a successful call went through. *)
Lemma entry_success (adduct : str) (l : list warning) (mult corr : F) :
  entry adduct = (l, Ret (Some mult, Some corr)) ->
  exists c p ions sum l1 l2 l3,
    get_charge_of_adduct adduct = (l1, Ret (Some c))
    /\ c <> 0%Z /\ (-9 <= c <= 9)%Z
    /\ get_ions_from_adduct adduct = (l2, Ret (Some p, Some ions))
    /\ get_mass_of_ion Formula_mass ions = (l3, Ret (Some sum))
    /\ mult = fmul (fdiv (float_of_int 1) (float_of_int (Z.abs c)))
                   (float_of_int p)
    /\ corr = fdiv (fadd sum (fmul ELECTRTON_MASS (float_of_int (- c))))
                   (float_of_int (Z.abs c)).
Proof.
  rewrite get_multiplier_and_mass_from_adduct_spec.
  rewrite get_charge_of_adduct_spec, get_ions_from_adduct_spec.
  pose proof (findall_charge_shape adduct) as Hshape.
  destruct (Re.findall re_charge adduct) as [|m [|m' ms]]; try discriminate.
  destruct (working_substring adduct) as [w|]; [|discriminate].
  rewrite ions_from_content_spec.
  destruct (Re.findall re_parent_mass w) as [|pm pms]; [discriminate|].
  destruct (get_mass_of_ion _ _) as [lm [[sum|]|e]] eqn:E; try discriminate.
  unfold finish.
  destruct (Z.abs (charge_value m) =? 0)%Z eqn:Ez; [discriminate|].
  intros [= _ <- <-].
  exists (charge_value m), (parent_value pm),
    (map normalise_token (Re.findall re_ions w)), sum.
  assert (Hc : charge_value m <> 0%Z) by (apply Z.eqb_neq in Ez; lia).
  assert (Hr : (-9 <= charge_value m <= 9)%Z)
    by (apply charge_value_range, Hshape; now left).
  destruct pms; eexists _, _, _; repeat split; try eassumption; tauto.
Qed.

(** C4.  The charge is extracted exactly when the charge pattern
    matches once; it is then the signed magnitude of the match, the
    magnitude being 1 when the match has no digit; with any other number
    of matches the entry point returns the null pair. *)
Theorem charge_extraction (adduct : str) :
  let ms := Re.findall re_charge adduct in
  ((exists c, result (get_charge_of_adduct adduct) = Ret (Some c))
   <-> length ms = 1)
  /\ (forall m, ms = [m] ->
        charge_shape m
        /\ get_charge_of_adduct adduct = ([], Ret (Some (charge_value m))))
  /\ (length ms <> 1 ->
        get_charge_of_adduct adduct
        = ([Warn_charge_count (length ms) adduct], Ret None)
        /\ entry adduct
           = ([Warn_charge_count (length ms) adduct], Ret (None, None)))
  /\ charge_value (py "2+") = 2%Z
  /\ charge_value (py "-") = (-1)%Z.
Proof.
  cbn zeta. rewrite get_multiplier_and_mass_from_adduct_spec.
  rewrite get_charge_of_adduct_spec.
  pose proof (findall_charge_shape adduct) as Hshape.
  destruct (Re.findall re_charge adduct) as [|m [|m' ms]]; cbn.
  - repeat split; try easy. now intros [c Hc].
  - repeat split; try easy.
    + intros _. now exists (charge_value m).
    + injection H as <-. apply Hshape. now left.
    + now injection H as <-.
  - repeat split; try easy. now intros [c Hc].
Qed.

(** X22.  What the check of line 42 does catch: when the string has an
    opening bracket and the bracket pattern does not match exactly
    once, the entry point returns the null pair and does not raise;
    the warning is that of the brackets when the charge was found,
    that of the charge otherwise. *)
Theorem brackets_not_matched_once (adduct : str) :
  contains "[" adduct = true ->
  length (Re.findall re_brackets adduct) <> 1 ->
  get_ions_from_adduct adduct = ([Warn_brackets adduct], Ret (None, None))
  /\ result (entry adduct) = Ret (None, None)
  /\ log (entry adduct)
     = if length (Re.findall re_charge adduct) =? 1
       then [Warn_brackets adduct]
       else [Warn_charge_count (length (Re.findall re_charge adduct)) adduct].
Proof.
  intros Hc Hn.
  assert (Hw : working_substring adduct = None).
  { unfold working_substring. rewrite Hc.
    now destruct (Re.findall re_brackets adduct) as [|w [|w' ws]]. }
  rewrite get_multiplier_and_mass_from_adduct_spec.
  rewrite get_ions_from_adduct_spec, Hw.
  now destruct (Re.findall re_charge adduct) as [|m [|m' ms]].
Qed.

(** A shorthand and its formula normalise to the same token, whatever
    the sign and the count. *)
Lemma normalise_token_abbreviation (sign : ascii) (ds a f : str) :
  forallb is_digit ds = true ->
  In (a, f) abbrev_to_formula ->
  normalise_token (sign :: ds ++ a) = normalise_token (sign :: ds ++ f).
Proof.
  intros Hds Hin. cbn [normalise_token].
  destruct ds as [|d ds]; [|
    assert (Hc : plain_count (NumStr (d :: ds)) = true)
      by (unfold plain_count; now rewrite Hds) ].
  all: cbn in Hin;
    repeat (destruct Hin as [[= <- <-]|Hin]; [|]); try contradiction.
  all: try reflexivity.
  all: rewrite !split_body_app by (exact Hc || reflexivity); reflexivity.
Qed.

(** C9.  On an ion token [split_ion] returns the sign, the count (the
    int 1 when the token has no leading digit) and the identifier;
    [replace_abbreviations] cannot fail, puts the table's formula in
    place of the identifier, or leaves it, and keeps sign and count.  A
    shorthand and its formula give the same normalised token, hence the
    same mass, wherever the token stands among the others: FA as
    CH2O2. *)
Theorem abbreviation_normalisation :
  (forall t, ion_token t = true ->
     exists sign count ident,
       split_ion t = ret (sign, count, ident)
       /\ hd_error t = Some sign
       /\ plain_count count = true
       /\ (forall c s, tl t = c :: s -> is_digit c = false ->
             count = NumInt 1 /\ ident = tl t)
       /\ replace_abbreviations [t]
          = ret [sign :: str_of_number count ++ expand ident]
       /\ split_ion (sign :: str_of_number count ++ expand ident)
          = ret (sign, NumStr (str_of_number count), expand ident)
       /\ int_of_number (NumStr (str_of_number count))
          = int_of_number count)
  /\ (forall ions,
        forallb ion_token ions = true ->
        replace_abbreviations ions = ret (map normalise_token ions))
  /\ (forall ident,
        match dict_get abbrev_to_formula ident with
        | Some formula => expand ident = formula
        | None => expand ident = ident
        end)
  /\ (forall sign ds a f pre post,
        is_sign sign = true -> forallb is_digit ds = true ->
        In (a, f) abbrev_to_formula ->
        replace_abbreviations (pre ++ (sign :: ds ++ a) :: post)
        = replace_abbreviations (pre ++ (sign :: ds ++ f) :: post)
        /\ bind (replace_abbreviations (pre ++ (sign :: ds ++ a) :: post))
                (get_mass_of_ion Formula_mass)
           = bind (replace_abbreviations (pre ++ (sign :: ds ++ f) :: post))
                  (get_mass_of_ion Formula_mass))
  /\ entry (py "[M+FA]+") = entry (py "[M+CH2O2]+")
  /\ Forall (fun kv =>
               entry (py "[M+" ++ fst kv ++ py "]+")
               = entry (py "[M+" ++ snd kv ++ py "]+"))
            abbrev_to_formula.
Proof.
  split; [|split; [|split; [|split; [|split]]]].
  - intros t Ht. destruct t as [|sign body]; [discriminate|].
    assert (Hs : is_sign sign = true /\ body <> []
                 /\ forallb is_alnum body = true).
    { destruct body as [|d s]; cbn in Ht; [discriminate|].
      rewrite !andb_true_iff in Ht. cbn [forallb]. rewrite andb_true_iff.
      repeat split; try tauto. discriminate. }
    destruct Hs as (Hs & Hne & Hal).
    destruct (split_body_plain Hne Hal) as [Hc Hi].
    exists sign, (fst (split_body body)), (snd (split_body body)).
    repeat split.
    + now rewrite split_ion_spec, Hs.
    + exact Hc.
    + cbn in H. subst body. cbn. now rewrite H0.
    + cbn in H. subst body. cbn. now rewrite H0.
    + rewrite replace_abbreviations_spec; [reflexivity|].
      cbn. now rewrite Hs.
    + exact (split_ion_normalised _ _ Ht).
    + now apply int_of_number_str.
  - intros ions Hall. apply replace_abbreviations_spec.
    rewrite forallb_forall in *. intros x Hx. now apply ion_token_sign, Hall.
  - intros ident. unfold expand.
    now destruct (dict_get abbrev_to_formula ident).
  - intros sign ds a f pre post Hs Hds Hin.
    assert (E : replace_abbreviations (pre ++ (sign :: ds ++ a) :: post)
                = replace_abbreviations (pre ++ (sign :: ds ++ f) :: post)).
    { apply replace_abbreviations_loop_congr; try exact Hs.
      exact (@normalise_token_abbreviation sign ds a f Hds Hin). }
    now rewrite E.
  - reflexivity.
  - repeat constructor.
Qed.

(** C10.  Characters after the charge suffix, or before the opening
    bracket, do not change the result: the adduct [M+H]+ with an X after
    it, or before it, resolves as the adduct itself, and it does resolve
    when H has a mass. *)
Theorem extra_characters_ignored (m : F) :
  Formula_mass (py "H") = Some m ->
  fits_float 1 = true ->
  entry (py "[M+H]+X") = entry (py "[M+H]+")
  /\ entry (py "X[M+H]+") = entry (py "[M+H]+")
  /\ exists multiplier correction_mass,
       entry (py "[M+H]+X") = ([], Ret (Some multiplier, Some correction_mass))
       /\ entry (py "X[M+H]+")
          = ([], Ret (Some multiplier, Some correction_mass)).
Proof.
  intros Hm Hfit. split; [reflexivity|]. split; [reflexivity|].
  change (py "H") with ["H"%char] in Hm. vm_compute in Hfit.
  eexists _, _. split.
  - vm_compute. rewrite Hm. vm_compute. rewrite Hfit. reflexivity.
  - vm_compute. rewrite Hm. vm_compute. rewrite Hfit. reflexivity.
Qed.

End Claims.

(* ================================================================= *)
(** ** The claims that depend on the arithmetic *)

Lemma exact_of_int_nonzero (z : Z) :
  z <> 0%Z -> float_of_int (F := Qc) z <> 0%Qc.
Proof.
  intros Hz H. cbn in H. apply Q2Qc_eq_iff in H.
  unfold Qeq in H. cbn in H. lia.
Qed.

(** C2.  A successful call returns [(1/|c|) * p] and
    [(S + e * -c) / |c|], each operation in the arithmetic of the
    program and in that order, [c] being the charge (never 0 on
    success), [p] the parent multiplier and [S] the sum of the ion
    masses.  In exact arithmetic this is the pair [p / |c|] and
    [(S + e * -c) / |c|].  The adduct [M]+ has no ion, the sum is the
    float of 0, its multiplier is 1 and, in exact arithmetic, its
    correction mass is [- e]. *)
Theorem resolved_pair :
  (forall (F : Type) (arith : PyArith F) (Formula_mass : str -> option F)
          (ELECTRTON_MASS : F) adduct l mult corr,
     get_multiplier_and_mass_from_adduct Formula_mass ELECTRTON_MASS adduct
     = (l, Ret (Some mult, Some corr)) ->
     exists c p ions sum l1 l2 l3,
       get_charge_of_adduct adduct = (l1, Ret (Some c))
       /\ c <> 0%Z
       /\ get_ions_from_adduct adduct = (l2, Ret (Some p, Some ions))
       /\ get_mass_of_ion Formula_mass ions = (l3, Ret (Some sum))
       /\ mult = fmul (fdiv (float_of_int 1) (float_of_int (Z.abs c)))
                      (float_of_int p)
       /\ corr = fdiv (fadd sum (fmul ELECTRTON_MASS (float_of_int (- c))))
                      (float_of_int (Z.abs c)))
  /\ (forall (Formula_mass : str -> option Qc) (ELECTRTON_MASS : Qc)
             adduct l mult corr,
        get_multiplier_and_mass_from_adduct Formula_mass ELECTRTON_MASS adduct
        = (l, Ret (Some mult, Some corr)) ->
        exists c p ions sum l1 l2 l3,
          get_charge_of_adduct adduct = (l1, Ret (Some c))
          /\ c <> 0%Z
          /\ get_ions_from_adduct adduct = (l2, Ret (Some p, Some ions))
          /\ get_mass_of_ion Formula_mass ions = (l3, Ret (Some sum))
          /\ mult = (float_of_int p / float_of_int (Z.abs c))%Qc
          /\ corr = ((sum + ELECTRTON_MASS * float_of_int (- c))
                     / float_of_int (Z.abs c))%Qc)
  /\ (forall (F : Type) (arith : PyArith F) (Formula_mass : str -> option F)
             (ELECTRTON_MASS : F),
        get_mass_of_ion Formula_mass [] = ([], Ret (Some (float_of_int 0)))
        /\ get_multiplier_and_mass_from_adduct
             Formula_mass ELECTRTON_MASS (py "[M]+")
           = ([], Ret (Some (fmul (fdiv (float_of_int 1) (float_of_int 1))
                                  (float_of_int 1)),
                       Some (fdiv (fadd (float_of_int 0)
                                        (fmul ELECTRTON_MASS
                                              (float_of_int (-1))))
                                  (float_of_int 1)))))
  /\ (forall (Formula_mass : str -> option Qc) (ELECTRTON_MASS : Qc),
        get_multiplier_and_mass_from_adduct
          Formula_mass ELECTRTON_MASS (py "[M]+")
        = ([], Ret (Some 1%Qc, Some (- ELECTRTON_MASS)%Qc)))
  /\ (forall (Formula_mass : str -> option float) (ELECTRTON_MASS : float),
        get_multiplier_and_mass_from_adduct
          Formula_mass ELECTRTON_MASS (py "[M]+")
        = ([], Ret (Some 1%float,
                    Some ((0 + ELECTRTON_MASS * (-1)) / 1)%float)))
  /\ sample_run (py "[M]+")
     = ([], Ret (Some 1%float, Some (- sample_ELECTRON_MASS)%float)).
Proof.
  split; [|split; [|split; [|split; [|split]]]].
  - intros F arith Formula_mass e adduct l mult corr H.
    apply entry_success in H.
    destruct H as (c & p & ions & sum & l1 & l2 & l3 & H).
    exists c, p, ions, sum, l1, l2, l3. tauto.
  - intros Formula_mass e adduct l mult corr H.
    apply entry_success in H.
    destruct H as (c & p & ions & sum & l1 & l2 & l3
                   & H1 & Hc & _ & H2 & H3 & -> & ->).
    exists c, p, ions, sum, l1, l2, l3.
    split; [exact H1|]. split; [exact Hc|]. split; [exact H2|].
    split; [exact H3|]. split; [|reflexivity].
    assert (Hn : float_of_int (F := Qc) (Z.abs c) <> 0%Qc)
      by (apply exact_of_int_nonzero; lia).
    change (fmul (F := Qc)) with Qcmult. change (fdiv (F := Qc)) with Qcdiv.
    change (float_of_int (F := Qc) 1) with 1%Qc.
    field. exact Hn.
  - intros F arith Formula_mass e. split; reflexivity.
  - intros Formula_mass e.
    change (get_multiplier_and_mass_from_adduct Formula_mass e (py "[M]+"))
      with ([] : list warning,
            Ret (Some ((1 / 1) * 1)%Qc, Some ((0 + e * (- (1))) / 1)%Qc)).
    assert (E1 : ((1 / 1) * 1 = 1)%Qc) by (field; discriminate).
    assert (E2 : ((0 + e * (- (1))) / 1 = - e)%Qc) by (field; discriminate).
    now rewrite E1, E2.
  - intros Formula_mass e. reflexivity.
  - reflexivity.
Qed.

(** In binary64, [(1/a) * p] for a digit [a] that is not 0 and a digit
    [p]: never negative, and positive unless [p] is 0. *)
Lemma binary64_multiplier_sign (a p : Z) :
  (1 <= a <= 9)%Z -> (0 <= p <= 9)%Z ->
  let mult := (float_of_int 1 / float_of_int a * float_of_int p)%float in
  PrimFloat.leb 0 mult = true
  /\ (PrimFloat.ltb 0 mult = true <-> (0 < p)%Z).
Proof.
  intros Ha Hp.
  assert (Ea : (a = 1 \/ a = 2 \/ a = 3 \/ a = 4 \/ a = 5 \/ a = 6 \/ a = 7
                \/ a = 8 \/ a = 9)%Z) by lia.
  assert (Ep : (p = 0 \/ p = 1 \/ p = 2 \/ p = 3 \/ p = 4 \/ p = 5 \/ p = 6
                \/ p = 7 \/ p = 8 \/ p = 9)%Z) by lia.
  repeat (destruct Ea as [->|Ea]; [|]); try subst a;
    repeat (destruct Ep as [->|Ep]; [|]); try subst p;
    vm_compute;
    (split; [reflexivity|split; intros H; first [reflexivity|discriminate H]]).
Qed.

Lemma parent_value_range (m : str) :
  parent_shape m -> (0 <= parent_value m <= 9)%Z.
Proof.
  intros [|d Hd]; cbn; [lia|]. now apply digit_value_range.
Qed.

(** C6.  The parsed parent multiplier is the digit before [M], from 0
    to 9, and 1 for a bare [M]; the multiplier returned on success is
    never negative, and it is positive exactly when the parent
    multiplier is not 0. *)
Theorem parent_multiplier_range :
  (forall adduct l p ions,
     get_ions_from_adduct adduct = (l, Ret (Some p, Some ions)) ->
     (0 <= p <= 9)%Z
     /\ exists w m ms,
          working_substring adduct = Some w
          /\ Re.findall re_parent_mass w = m :: ms
          /\ p = parent_value m
          /\ (m = py "M" -> p = 1%Z))
  /\ (forall (Formula_mass : str -> option float) (ELECTRTON_MASS : float)
             adduct l mult corr,
        get_multiplier_and_mass_from_adduct Formula_mass ELECTRTON_MASS adduct
        = (l, Ret (Some mult, Some corr)) ->
        exists l2 p ions,
          get_ions_from_adduct adduct = (l2, Ret (Some p, Some ions))
          /\ PrimFloat.leb 0 mult = true
          /\ (PrimFloat.ltb 0 mult = true <-> (0 < p)%Z)).
Proof.
  assert (H1 : forall adduct l p ions,
     get_ions_from_adduct adduct = (l, Ret (Some p, Some ions)) ->
     (0 <= p <= 9)%Z
     /\ exists w m ms,
          working_substring adduct = Some w
          /\ Re.findall re_parent_mass w = m :: ms
          /\ p = parent_value m
          /\ (m = py "M" -> p = 1%Z)).
  { intros adduct l p ions. rewrite get_ions_from_adduct_spec.
    destruct (working_substring adduct) as [w|]; [|discriminate].
    rewrite ions_from_content_spec.
    pose proof (findall_parent_shape w) as Hshape.
    destruct (Re.findall re_parent_mass w) as [|m ms] eqn:E; [discriminate|].
    assert (Hm : parent_shape m) by (apply Hshape; now left).
    intros H.
    assert (Hp : p = parent_value m) by (destruct ms; now injection H).
    subst p. split; [now apply parent_value_range|].
    exists w, m, ms. split; [reflexivity|]. split; [exact E|].
    split; [reflexivity|]. now intros ->. }
  split; [exact H1|].
  intros Formula_mass e adduct l mult corr H.
  apply entry_success in H.
  destruct H as (c & p & ions & sum & l1 & l2 & l3
                 & _ & Hc & Hr & H2 & _ & -> & _).
  exists l2, p, ions. split; [exact H2|].
  apply H1 in H2. destruct H2 as [Hp _].
  apply binary64_multiplier_sign; lia.
Qed.

(* ================================================================= *)
(** ** Inputs on which a claim fails *)

(** C2.  In binary64 the multiplier of the adduct [3M]5+ is
    [(1/5) * 3], which is not the quotient [3/5]. *)
Lemma multiplier_differs_from_quotient :
  get_charge_of_adduct (py "[3M]5+") = ([], Ret (Some 5%Z))
  /\ get_ions_from_adduct (py "[3M]5+") = ([], Ret (Some 3%Z, Some []))
  /\ exists mult corr,
       sample_run (py "[3M]5+") = ([], Ret (Some mult, Some corr))
       /\ mult <> (float_of_int 3 / float_of_int (Z.abs 5))%float.
Proof.
  split; [reflexivity|]. split; [reflexivity|].
  eexists _, _. split; [reflexivity|].
  intros H.
  apply (f_equal (fun x =>
           PrimFloat.leb x (float_of_int 3 / float_of_int (Z.abs 5)))) in H.
  vm_compute in H. discriminate H.
Qed.

(** C6.  The adduct [0M]+ parses, its parent multiplier is 0, and so
    is the multiplier returned. *)
Lemma parent_multiplier_can_be_zero :
  get_ions_from_adduct (py "[0M]+") = ([], Ret (Some 0%Z, Some []))
  /\ ~ (0 < 0)%Z
  /\ sample_run (py "[0M]+")
     = ([], Ret (Some 0%float, Some (- sample_ELECTRON_MASS)%float))
  /\ PrimFloat.ltb 0 0 = false.
Proof. repeat split; try reflexivity. lia. Qed.

(** C8.  Two bracket groups on a line, or a group inside another, are
    one match of the bracket pattern, from the first opening bracket to
    the last closing one: the check of line 42, which means to find the
    brackets once, lets them through, and the adduct resolves without a
    warning. *)
Lemma bracket_groups_merged :
  count_occ ascii_dec (py "[M-][x]+") "["%char = 2
  /\ Re.findall re_brackets (py "[M-][x]+") = [py "M-][x"]
  /\ sample_run (py "[M-][x]+")
     = ([], Ret (Some 1%float, Some (- sample_ELECTRON_MASS)%float))
  /\ count_occ ascii_dec (py "[M+[H]]+") "["%char = 2
  /\ Re.findall re_brackets (py "[M+[H]]+") = [py "M+[H]"]
  /\ sample_run (py "[M+[H]]+")
     = ([], Ret (Some 1%float, Some (- sample_ELECTRON_MASS)%float)).
Proof. repeat split; reflexivity. Qed.

(** A count of more digits than [int] takes: the conversion of line
    100 raises [ValueError], which nothing catches, though the value
    is 1. *)
Lemma long_count_raises_value_error :
  result (sample_run (py "[M+" ++ repeat "0"%char 4300 ++ py "1H]+"))
  = Raise ValueError
  /\ result (sample_run (py "[M+" ++ repeat "0"%char 4299 ++ py "1H]+"))
     = result (sample_run (py "[M+H]+")).
Proof. split; vm_compute; reflexivity. Qed.

(** An int too large for a float: the product of line 101 raises
    [OverflowError], which nothing catches. *)
Lemma huge_count_overflows :
  result (sample_run (py "[M+1" ++ repeat "0"%char 400 ++ py "H]+"))
  = Raise OverflowError.
Proof. vm_compute. reflexivity. Qed.

(* ================================================================= *)
(** ** The theorems at concrete inputs *)

Lemma charge_extraction_witness :
  get_charge_of_adduct (py "[M+H]2+") = ([], Ret (Some 2%Z))
  /\ sample_run (py "[M+H]")
     = ([Warn_charge_count 0 (py "[M+H]")], Ret (None, None)).
Proof.
  split.
  - destruct (@charge_extraction float binary64 sample_Formula_mass
                sample_ELECTRON_MASS (py "[M+H]2+")) as (_ & H & _).
    exact (proj2 (H (py "2+") eq_refl)).
  - destruct (@charge_extraction float binary64 sample_Formula_mass
                sample_ELECTRON_MASS (py "[M+H]")) as (_ & _ & H & _).
    apply H. vm_compute. discriminate.
Defined.

Lemma brackets_not_matched_once_witness :
  result (sample_run (py "[M]" ++ newline :: py "[M]+")) = Ret (None, None)
  /\ log (sample_run (py "[M]" ++ newline :: py "[M]+"))
     = [Warn_brackets (py "[M]" ++ newline :: py "[M]+")].
Proof.
  refine (proj2 (@brackets_not_matched_once float binary64
                   sample_Formula_mass sample_ELECTRON_MASS
                   (py "[M]" ++ newline :: py "[M]+") _ _)).
  - reflexivity.
  - vm_compute. discriminate.
Defined.

Lemma abbreviation_normalisation_witness :
  (exists sign count ident,
     split_ion (py "+2FA") = ret (sign, count, ident)
     /\ replace_abbreviations [py "+2FA"]
        = ret [sign :: str_of_number count ++ expand ident])
  /\ replace_abbreviations [py "-3FA"] = replace_abbreviations [py "-3CH2O2"].
Proof.
  destruct (@abbreviation_normalisation float binary64 sample_Formula_mass
              sample_ELECTRON_MASS) as (H1 & _ & _ & H3 & _).
  split.
  - destruct (H1 (py "+2FA") eq_refl)
      as (sign & count & ident & Ha & _ & _ & _ & Hb & _).
    now exists sign, count, ident.
  - refine (proj1 (H3 "-"%char (py "3") (py "FA") (py "CH2O2") [] [] _ _ _)).
    + reflexivity.
    + reflexivity.
    + right. right. left. reflexivity.
Defined.

Lemma extra_characters_ignored_witness :
  sample_run (py "[M+H]+X") = sample_run (py "[M+H]+")
  /\ sample_run (py "X[M+H]+") = sample_run (py "[M+H]+").
Proof.
  destruct (@extra_characters_ignored float binary64 sample_Formula_mass
              sample_ELECTRON_MASS 1.00782503223%float eq_refl eq_refl)
    as (H1 & H2 & _).
  split; [exact H1|exact H2].
Defined.

Lemma resolved_pair_witness :
  (exists c p ions sum l1 l2 l3,
     get_charge_of_adduct (py "[2M+H]2+") = (l1, Ret (Some c))
     /\ c <> 0%Z
     /\ get_ions_from_adduct (py "[2M+H]2+") = (l2, Ret (Some p, Some ions))
     /\ get_mass_of_ion sample_Formula_mass ions = (l3, Ret (Some sum))
     /\ 1%float
        = fmul (fdiv (float_of_int 1) (float_of_int (Z.abs c)))
               (float_of_int p)
     /\ ((0 + 1 * 1.00782503223 + sample_ELECTRON_MASS * (-2)) / 2)%float
        = fdiv (fadd sum (fmul sample_ELECTRON_MASS (float_of_int (- c))))
               (float_of_int (Z.abs c)))
  /\ (exists c p ions sum l1 l2 l3,
        get_charge_of_adduct (py "[3M]5+") = (l1, Ret (Some c))
        /\ c <> 0%Z
        /\ get_ions_from_adduct (py "[3M]5+") = (l2, Ret (Some p, Some ions))
        /\ get_mass_of_ion (fun _ => None) ions = (l3, Ret (Some sum))
        /\ (1 / float_of_int 5 * float_of_int 3
            = float_of_int p / float_of_int (Z.abs c))%Qc
        /\ ((0 + 1 * float_of_int (-5)) / float_of_int 5
            = (sum + 1 * float_of_int (- c)) / float_of_int (Z.abs c))%Qc).
Proof.
  split.
  - refine (proj1 resolved_pair float binary64 sample_Formula_mass
              sample_ELECTRON_MASS (py "[2M+H]2+") [] _ _ _).
    reflexivity.
  - refine (proj1 (proj2 resolved_pair) (fun _ => None) 1%Qc
              (py "[3M]5+") [] _ _ _).
    reflexivity.
Defined.

Lemma parent_multiplier_range_witness :
  (0 <= 2 <= 9)%Z
  /\ exists l2 p ions,
       get_ions_from_adduct (py "[2M+H]+") = (l2, Ret (Some p, Some ions))
       /\ PrimFloat.leb 0 2 = true
       /\ (PrimFloat.ltb 0 2 = true <-> (0 < p)%Z).
Proof.
  destruct parent_multiplier_range as [H1 H2]. split.
  - refine (proj1 (H1 (py "[2M+H]+") [] 2%Z [py "+1H"] _)). reflexivity.
  - refine (H2 sample_Formula_mass sample_ELECTRON_MASS (py "[2M+H]+")
              [] 2%float _ _).
    reflexivity.
Defined.

Lemma parent_mass_first_match_used_witness :
  get_ions_from_adduct (py "[M++2M]+")
  = ([Warn_parent_mass 2 (py "M++2M")], Ret (Some 1%Z, Some [py "+2M"])).
Proof.
  refine (@parent_mass_first_match_used (py "[M++2M]+")
            (py "M++2M") (py "M") [py "2M"] _ _ _).
  - reflexivity.
  - reflexivity.
  - discriminate.
Defined.

(* ================================================================= *)
(** ** Further properties of the functions *)

Module More.

Import ReFacts.

#[local] Arguments is_digit : simpl never.
#[local] Arguments is_sign : simpl never.
#[local] Arguments is_alnum : simpl never.
#[local] Arguments is_dot : simpl never.

Lemma not_dot_newline (c : ascii) : is_dot c = false -> c = newline.
Proof.
  unfold is_dot. intros H. apply negb_false_iff in H.
  now apply Ascii.eqb_eq in H.
Qed.

Lemma split_ion_log (ion : str) : log (split_ion ion) = [].
Proof.
  destruct ion as [|c s]; [reflexivity|].
  rewrite split_ion_spec. now destruct (is_sign c).
Qed.

(** X1.  [split_ion] raises exactly on the empty string, with [IndexError],
    and on a string that does not start with a sign, with
    [AssertionError]; it never logs. *)
Theorem split_ion_error_behaviour (ion : str) :
  log (split_ion ion) = []
  /\ (forall e, result (split_ion ion) = Raise e <->
        (ion = [] /\ e = IndexError)
        \/ (exists c s, ion = c :: s /\ is_sign c = false
                        /\ e = AssertionError)).
Proof.
  destruct ion as [|c s].
  - split; [reflexivity|]. intros e. cbn. split.
    + intros [= <-]. now left.
    + intros [[_ ->]|(c & s & H & _)]; [reflexivity|discriminate H].
  - rewrite split_ion_spec. destruct (is_sign c) eqn:Ec; cbn.
    + split; [reflexivity|]. intros e. split; [discriminate|].
      intros [[H _]|(c' & s' & [= <- <-] & H & _)]; [discriminate H|congruence].
    + split; [reflexivity|]. intros e. split.
      * intros [= <-]. right. now exists c, s.
      * intros [[H _]|(c' & s' & _ & _ & ->)]; [discriminate H|reflexivity].
Qed.

(** X2.  What [split_ion] returns puts the string together again: the sign,
    the count when there is one, the identifier, and then nothing or a
    rest that starts with a newline.  The count is all the leading
    digits, the identifier does not start with one. *)
Theorem split_ion_round_trip
        (ion : str) (l : list warning) (sign : ascii) (n : number)
        (ident : str) :
  split_ion ion = (l, Ret (sign, n, ident)) ->
  is_sign sign = true
  /\ match ident with c :: _ => is_digit c = false | [] => True end
  /\ match n with
     | NumStr ds =>
         ds <> [] /\ forallb is_digit ds = true
         /\ forallb is_dot ident = true
         /\ exists tail,
              ion = sign :: ds ++ ident ++ tail
              /\ match tail with c :: _ => c = newline | [] => True end
     | NumInt z => z = 1%Z /\ ion = sign :: ident
     end.
Proof.
  destruct ion as [|c body]; [discriminate|].
  rewrite split_ion_spec. destruct (is_sign c) eqn:Ec; [|discriminate].
  intros [= _ <- <- <-]. split; [exact Ec|].
  destruct body as [|d s]; cbn; [easy|].
  destruct (is_digit d) eqn:Ed; cbn.
  - pose proof (drop_while_head is_digit s) as Hh.
    pose proof (drop_while_head is_dot (drop_while is_digit s)) as Hn.
    split.
    + destruct (drop_while is_digit s) as [|x r]; [exact I|]. cbn.
      destruct (is_dot x); [exact Hh|exact I].
    + split; [discriminate|]. rewrite Ed, !take_while_all.
      do 2 (split; [reflexivity|]).
      exists (drop_while is_dot (drop_while is_digit s)).
      rewrite !take_drop_while. split; [reflexivity|].
      destruct (drop_while is_dot (drop_while is_digit s)) as [|x r];
        [exact I|now apply not_dot_newline].
  - easy.
Qed.

Lemma replace_abbreviations_loop_raise (t : str) (post acc : list str) :
  starts_with_sign t = false ->
  replace_abbreviations_loop acc (t :: post)
  = raise (match t with [] => IndexError | _ :: _ => AssertionError end).
Proof.
  intros Ht. cbn [replace_abbreviations_loop].
  destruct t as [|c s]; [reflexivity|].
  cbn in Ht. now rewrite split_ion_spec, Ht.
Qed.

Lemma replace_abbreviations_loop_prefix (pre rest acc : list str) :
  forallb starts_with_sign pre = true ->
  replace_abbreviations_loop acc (pre ++ rest)
  = replace_abbreviations_loop (acc ++ map normalise_token pre) rest.
Proof.
  revert acc. induction pre as [|t pre IH]; intros acc H; cbn [app map].
  - now rewrite app_nil_r.
  - cbn in H. apply andb_true_iff in H. destruct H as [Ht H].
    destruct t as [|c b]; [discriminate|]. cbn in Ht.
    rewrite replace_abbreviations_loop_step by exact Ht.
    rewrite (IH _ H). now rewrite <- app_assoc.
Qed.

(** X3.  [replace_abbreviations] never logs.  It returns when every token
    starts with a sign, and then returns one normalised token for each
    token given, in order; otherwise it raises at the first token that
    does not: [IndexError] when that token is empty, [AssertionError]
    when it starts with something else. *)
Theorem replace_abbreviations_outcome (ions : list str) :
  (forallb starts_with_sign ions = true
   /\ replace_abbreviations ions = ([], Ret (map normalise_token ions))
   /\ length (map normalise_token ions) = length ions)
  \/ (exists pre t post,
        ions = pre ++ t :: post
        /\ forallb starts_with_sign pre = true
        /\ starts_with_sign t = false
        /\ replace_abbreviations ions
           = ([], Raise (match t with
                         | [] => IndexError
                         | _ :: _ => AssertionError
                         end))).
Proof.
  destruct (forallb starts_with_sign ions) eqn:E.
  - left. split; [reflexivity|]. split; [|apply length_map].
    now apply replace_abbreviations_spec.
  - right.
    assert (H : exists pre t post,
               ions = pre ++ t :: post
               /\ forallb starts_with_sign pre = true
               /\ starts_with_sign t = false).
    { clear -E. induction ions as [|t ions IH]; [discriminate|].
      cbn in E. destruct (starts_with_sign t) eqn:Et.
      - destruct (IH E) as (pre & t' & post & -> & Hp & Ht').
        exists (t :: pre), t', post. cbn. now rewrite Et, Hp.
      - now exists [], t, ions. }
    destruct H as (pre & t & post & -> & Hp & Ht).
    exists pre, t, post. do 3 (split; [easy|]).
    unfold replace_abbreviations.
    rewrite replace_abbreviations_loop_prefix by exact Hp.
    now rewrite replace_abbreviations_loop_raise.
Qed.

Lemma expand_idempotent (ident : str) : expand (expand ident) = expand ident.
Proof.
  unfold expand at 2.
  destruct (dict_get abbrev_to_formula ident) as [f|] eqn:E.
  - apply dict_get_In in E. cbn in E.
    repeat (destruct E as [[= <- <-]|E]; [reflexivity|]). contradiction.
  - unfold expand. now rewrite E.
Qed.

Lemma ion_token_parts (sign : ascii) (body : str) :
  ion_token (sign :: body) = true ->
  is_sign sign = true /\ body <> [] /\ forallb is_alnum body = true.
Proof.
  intros Ht. destruct body as [|d s]; cbn in Ht; [discriminate|].
  rewrite !andb_true_iff in Ht. cbn [forallb]. rewrite andb_true_iff.
  repeat split; try tauto. discriminate.
Qed.

(** A normalised token is its own normal form. *)
Lemma normalise_token_idempotent (t : str) :
  ion_token t = true ->
  normalise_token (normalise_token t) = normalise_token t.
Proof.
  intros Ht. destruct t as [|sign body]; [discriminate|].
  destruct (ion_token_parts _ _ Ht) as (Hs & Hne & Hal).
  destruct (split_body_plain Hne Hal) as [Hc Hi].
  cbn [normalise_token].
  rewrite split_body_app;
    [|now apply plain_count_str|now apply expand_plain].
  cbn [fst snd str_of_number]. now rewrite expand_idempotent.
Qed.

(** X4.  [replace_abbreviations] is idempotent on ion tokens: what it
    returns, it returns unchanged when applied again. *)
Theorem replace_abbreviations_idempotent (ions out : list str) :
  forallb ion_token ions = true ->
  replace_abbreviations ions = ([], Ret out) ->
  replace_abbreviations out = ([], Ret out).
Proof.
  intros Hall. assert (Hs : forallb starts_with_sign ions = true).
  { rewrite forallb_forall in *. intros x Hx. now apply ion_token_sign, Hall. }
  rewrite (replace_abbreviations_spec _ Hs). intros [= <-].
  rewrite replace_abbreviations_spec.
  - rewrite map_map.
    assert (E : map (fun x => normalise_token (normalise_token x)) ions
                = map normalise_token ions).
    { apply map_ext_in. intros x Hx. apply normalise_token_idempotent.
      rewrite forallb_forall in Hall. now apply Hall. }
    now rewrite E.
  - rewrite forallb_forall in *. intros y Hy. apply in_map_iff in Hy.
    destruct Hy as (x & <- & Hx). specialize (Hs x Hx).
    destruct x as [|c b]; [discriminate|]. exact Hs.
Qed.

(** X5.  A token without a count and the same token with the count 1
    normalise alike, wherever they stand in the list: an omitted count
    is a count of one. *)
Theorem omitted_count_is_one
        (sign : ascii) (ident : str) (pre post : list str) :
  is_sign sign = true ->
  plain_ident ident = true ->
  replace_abbreviations (pre ++ (sign :: ident) :: post)
  = replace_abbreviations (pre ++ (sign :: py "1" ++ ident) :: post).
Proof.
  intros Hs Hi. apply replace_abbreviations_loop_congr; try exact Hs.
  cbn [normalise_token]. rewrite split_body_app by easy.
  f_equal. unfold plain_ident in Hi. apply andb_true_iff in Hi.
  destruct Hi as [Hd _]. destruct ident as [|c s]; [reflexivity|].
  cbn. apply negb_true_iff in Hd. now rewrite Hd.
Qed.

Lemma is_digit_alnum (c : ascii) : is_digit c = true -> is_alnum c = true.
Proof. intros H. unfold is_alnum. now rewrite H. Qed.

Lemma forallb_take_while (p q : ascii -> bool) (s : str) :
  forallb q s = true -> forallb q (take_while p s) = true.
Proof.
  induction s as [|c s IH]; cbn; [easy|]. rewrite andb_true_iff.
  intros [Hc Hs]. destruct (p c); cbn; [|reflexivity]. now rewrite Hc, IH.
Qed.

Lemma forallb_drop_while (p q : ascii -> bool) (s : str) :
  forallb q s = true -> forallb q (drop_while p s) = true.
Proof.
  induction s as [|c s IH]; cbn; [easy|]. rewrite andb_true_iff.
  intros [Hc Hs]. destruct (p c); cbn; [now apply IH|]. now rewrite Hc, Hs.
Qed.

Lemma expand_alnum (ident : str) :
  forallb is_alnum ident = true -> forallb is_alnum (expand ident) = true.
Proof.
  intros H. unfold expand.
  destruct (dict_get abbrev_to_formula ident) as [f|] eqn:E; [|exact H].
  apply dict_get_In in E. cbn in E.
  repeat (destruct E as [[= <- <-]|E]; [reflexivity|]). contradiction.
Qed.

Lemma plain_count_digits (n : number) :
  plain_count n = true ->
  exists d ds,
    str_of_number n = d :: ds
    /\ is_digit d = true /\ forallb is_digit ds = true.
Proof.
  destruct n as [ds|z]; cbn.
  - rewrite andb_true_iff. intros [Hne Hds].
    destruct ds as [|d ds]; [discriminate|]. cbn in Hds.
    apply andb_true_iff in Hds. now exists d, ds.
  - intros H. apply Z.eqb_eq in H. subst. now exists "1"%char, [].
Qed.

Lemma split_body_alnum (body : str) :
  forallb is_alnum body = true ->
  forallb is_alnum (snd (split_body body)) = true.
Proof.
  intros Hal. destruct body as [|d s]; [reflexivity|]. unfold split_body.
  destruct (is_digit d); cbn [snd]; [|exact Hal].
  cbn in Hal. apply andb_true_iff in Hal. destruct Hal as [_ Hal].
  now apply forallb_take_while, forallb_drop_while.
Qed.

(** A normalised token is an ion token again, and it carries its
    count. *)
Lemma normalise_token_shape (t : str) :
  ion_token t = true ->
  ion_token (normalise_token t) = true /\ has_count (normalise_token t) = true.
Proof.
  intros Ht. destruct t as [|sign body]; [discriminate|].
  destruct (ion_token_parts _ _ Ht) as (Hs & Hne & Hal).
  destruct (split_body_plain Hne Hal) as [Hc _].
  pose proof (expand_alnum _ (split_body_alnum _ Hal)) as Hi.
  destruct (plain_count_digits _ Hc) as (d0 & ds0 & E & Hd0 & Hds0).
  cbn [normalise_token]. rewrite E. cbn [app ion_token has_count].
  rewrite Hs, Hd0, (is_digit_alnum _ Hd0), forallb_app, Hi. cbn.
  rewrite andb_true_r. split; [|reflexivity].
  rewrite forallb_forall in *. intros x Hx. apply is_digit_alnum. auto.
Qed.

(** X6.  [get_ions_from_adduct] ends in one of three ways: the null pair
    with the warning of the brackets; [IndexError] after the warning of
    a missing parent mass; or a parent multiplier and a list of ions,
    never one without the other, with at most the warning of a
    repeated parent mass.  The assertion of [split_ion] and the
    [ValueError] of [int] are never raised.  The ions are as many as
    the ion pattern matched; each is an ion token again and carries
    its count. *)
Theorem get_ions_from_adduct_outcome (adduct : str) :
  (working_substring adduct = None
   /\ get_ions_from_adduct adduct = ([Warn_brackets adduct], Ret (None, None)))
  \/ (exists w,
        working_substring adduct = Some w
        /\ Re.findall re_parent_mass w = []
        /\ get_ions_from_adduct adduct
           = ([Warn_parent_mass 0 w], Raise IndexError))
  \/ (exists w p ions,
        working_substring adduct = Some w
        /\ get_ions_from_adduct adduct
           = (parent_warning w, Ret (Some p, Some ions))
        /\ length (parent_warning w) <= 1
        /\ length ions = length (Re.findall re_ions w)
        /\ forallb ion_token ions = true
        /\ forallb has_count ions = true).
Proof.
  rewrite get_ions_from_adduct_spec.
  destruct (working_substring adduct) as [w|]; [|now left].
  right. rewrite ions_from_content_spec.
  destruct (Re.findall re_parent_mass w) as [|m ms] eqn:E.
  { left. now exists w. }
  right. exists w, (parent_value m), (map normalise_token (Re.findall re_ions w)).
  unfold parent_warning. rewrite E.
  split; [reflexivity|]. split; [now destruct ms|].
  split; [destruct ms; cbn; lia|]. split; [apply length_map|].
  split; apply forallb_forall; intros y Hy; apply in_map_iff in Hy;
    destruct Hy as (x & <- & Hx); apply findall_ion_token in Hx;
    now apply normalise_token_shape.
Qed.

(** X7.  [get_charge_of_adduct] never raises: it returns [None] with one
    warning, that of the count, or a charge from -9 to 9 with none.
    The warning of line 118 is never logged. *)
Theorem get_charge_of_adduct_outcome (adduct : str) :
  (exists n,
     n <> 1
     /\ get_charge_of_adduct adduct
        = ([Warn_charge_count n adduct], Ret None))
  \/ (exists c,
        get_charge_of_adduct adduct = ([], Ret (Some c))
        /\ (-9 <= c <= 9)%Z).
Proof.
  rewrite get_charge_of_adduct_spec.
  pose proof (findall_charge_shape adduct) as Hshape.
  destruct (Re.findall re_charge adduct) as [|m [|m' ms]].
  - left. now exists 0.
  - right. exists (charge_value m). split; [reflexivity|].
    apply charge_value_range, Hshape. now left.
  - left. exists (S (S (length ms))). split; [lia|reflexivity].
Qed.


Lemma before_last_none (a : ascii) (s : str) :
  before_last a s = None <-> existsb (is_char a) s = false.
Proof.
  induction s as [|c s IH]; cbn; [easy|].
  destruct (before_last a s) as [b|].
  - split; [discriminate|]. intros H. apply orb_false_iff in H.
    destruct H as [_ H]. apply IH in H. discriminate H.
  - destruct (is_char a c); cbn; [easy|]. split; [|easy].
    intros _. now apply IH.
Qed.

Lemma before_last_split (a : ascii) (s b : str) :
  before_last a s = Some b ->
  exists post, s = b ++ a :: post /\ existsb (is_char a) post = false.
Proof.
  revert b. induction s as [|c s IH]; intros b; cbn; [discriminate|].
  destruct (before_last a s) as [b'|] eqn:E.
  - intros [= <-]. destruct (IH b' eq_refl) as (post & -> & Hp).
    now exists post.
  - destruct (is_char a c) eqn:Ec; [|discriminate]. intros [= <-].
    apply is_char_eq in Ec. subst c. exists s. split; [reflexivity|].
    now apply before_last_none.
Qed.

Lemma after_first_split (a : ascii) (s t : str) :
  after_first a s = Some t ->
  exists pre, s = pre ++ a :: t /\ existsb (is_char a) pre = false.
Proof.
  induction s as [|c s IH]; cbn; [discriminate|].
  destruct (is_char a c) eqn:Ec.
  - intros [= <-]. apply is_char_eq in Ec. subst c. now exists [].
  - intros H. destruct (IH H) as (pre & -> & Hp). exists (c :: pre).
    cbn. now rewrite Ec, Hp.
Qed.

(** Greedy [.*] before a closing bracket, on a string without a
    newline: it stops at the last closing bracket. *)
Lemma star_before_close (G : nat -> list str) (g : list str)
      (k : Re.mstate -> option Re.mstate) :
  (forall j s',
     k (Re.MState j s' g)
     = match s' with
       | c :: s'' =>
           if is_char "]" c then Some (Re.MState (S j) s'' (G j)) else None
       | [] => None
       end) ->
  forall s i,
    forallb is_dot s = true ->
    Re.star is_dot i s g k
    = match before_last "]" s with
      | Some b =>
          Some (Re.MState (S (i + length b)) (skipn (S (length b)) s)
                          (G (i + length b)))
      | None => None
      end.
Proof.
  intros Hk. induction s as [|c s IH]; intros i Hs.
  - cbn. now rewrite Hk.
  - cbn [forallb] in Hs. apply andb_true_iff in Hs. destruct Hs as [Hc Hs].
    cbn [Re.star before_last]. rewrite Hc, (IH (S i) Hs).
    destruct (before_last "]" s) as [b|].
    + cbn [length skipn]. now rewrite Nat.add_succ_r.
    + rewrite Hk. destruct (is_char "]" c); [|reflexivity].
      cbn [length skipn]. now rewrite Nat.add_0_r.
Qed.

(** One attempt of the bracket pattern on a string without a
    newline. *)
Lemma brackets_match_at (i : nat) (s : str) :
  forallb is_dot s = true ->
  Re.match_at re_brackets i s
  = match s with
    | c :: t =>
        if is_char "[" c then
          match before_last "]" t with
          | Some b =>
              Some (Re.MState (S (S i + length b)) (skipn (S (length b)) t)
                              [b])
          | None => None
          end
        else None
    | [] => None
    end.
Proof.
  intros Hs. destruct s as [|c t]; [reflexivity|].
  cbn [forallb] in Hs. apply andb_true_iff in Hs. destruct Hs as [_ Ht].
  unfold Re.match_at, re_brackets. cbn [Re.run Re.rest Re.pos Re.groups].
  destruct (is_char "[" c); [|reflexivity].
  rewrite (star_before_close (fun j => [] ++ [firstn (j - S i) t])).
  - destruct (before_last "]" t) as [b|] eqn:E; [|reflexivity].
    destruct (before_last_split _ _ E) as (post & -> & _).
    replace (S i + length b - S i) with (length b) by lia.
    now rewrite firstn_app, Nat.sub_diag, firstn_all, app_nil_r.
  - intros j s'. cbn. now destruct s' as [|x s''].
  - exact Ht.
Qed.

Lemma scan_skip (r : Re.regex) (skip : nat) :
  forall s i,
    skip <= length s ->
    Re.scan r i s skip = Re.scan r (i + skip) (skipn skip s) 0.
Proof.
  induction skip as [|n IH]; intros s i H.
  - now rewrite Nat.add_0_r.
  - destruct s as [|c s]; [cbn in H; lia|]. cbn [Re.scan skipn].
    cbn in H. rewrite IH by lia. now rewrite Nat.add_succ_r.
Qed.

Lemma skipn_past (b post : str) (x : ascii) :
  skipn (S (length b)) (b ++ x :: post) = post.
Proof. induction b as [|c b IH]; [reflexivity|exact IH]. Qed.

Lemma scan_brackets_no_close (s : str) :
  forallb is_dot s = true ->
  existsb (is_char "]") s = false ->
  forall i, Re.scan re_brackets i s 0 = [].
Proof.
  induction s as [|c s IH]; intros Hs Hn i; [reflexivity|].
  cbn [Re.scan]. rewrite (brackets_match_at _ _ Hs).
  cbn in Hs, Hn. apply andb_true_iff in Hs. destruct Hs as [_ Hs].
  apply orb_false_iff in Hn. destruct Hn as [_ Hn].
  rewrite (proj2 (before_last_none "]" s) Hn).
  destruct (is_char "[" c); now apply IH.
Qed.

Lemma scan_brackets_one_line (s : str) :
  forallb is_dot s = true ->
  forall i,
    Re.scan re_brackets i s 0
    = match bracket_content s with
      | Some b => [[b]]
      | None => []
      end.
Proof.
  induction s as [|c s IH]; intros Hs i; [reflexivity|].
  cbn [Re.scan]. rewrite (brackets_match_at _ _ Hs).
  cbn [forallb] in Hs. apply andb_true_iff in Hs. destruct Hs as [_ Hs].
  unfold bracket_content. cbn [after_first].
  destruct (is_char "[" c); [|now apply IH].
  destruct (before_last "]" s) as [b|] eqn:E.
  - destruct (before_last_split _ _ E) as (post & -> & Hp).
    cbn [Re.groups Re.pos]. f_equal.
    replace (S (S i + length b) - i - 1) with (S (length b)) by lia.
    rewrite scan_skip by (rewrite length_app; cbn; lia).
    rewrite skipn_past.
    apply scan_brackets_no_close; [|exact Hp].
    rewrite forallb_app in Hs. apply andb_true_iff in Hs.
    destruct Hs as [_ Hs]. cbn in Hs. now apply andb_true_iff in Hs.
  - apply scan_brackets_no_close; [exact Hs|]. now apply before_last_none.
Qed.

(** X16.  On an adduct without a newline the bracket pattern matches at most
    once: what it finds is what stands between the first opening
    bracket and the last closing bracket after it, whatever brackets
    lie in between.  So the check of line 42 fails on such an adduct
    only when no closing bracket follows its first opening bracket. *)
Theorem brackets_on_one_line (adduct : str) :
  forallb is_dot adduct = true ->
  Re.findall re_brackets adduct
  = match bracket_content adduct with
    | Some w => [w]
    | None => []
    end
  /\ (forall w, bracket_content adduct = Some w ->
        exists pre post,
          adduct = pre ++ "["%char :: w ++ "]"%char :: post
          /\ contains "[" pre = false /\ contains "]" post = false)
  /\ working_substring adduct
     = (if contains "[" adduct then bracket_content adduct else Some adduct)
  /\ (get_ions_from_adduct adduct = ([Warn_brackets adduct], Ret (None, None))
      <-> contains "[" adduct = true /\ bracket_content adduct = None).
Proof.
  intros Hs.
  assert (Hf : Re.findall re_brackets adduct
               = match bracket_content adduct with
                 | Some w => [w]
                 | None => []
                 end).
  { unfold Re.findall. rewrite (scan_brackets_one_line _ Hs).
    now destruct (bracket_content adduct). }
  assert (Hw : working_substring adduct
               = (if contains "[" adduct then bracket_content adduct
                  else Some adduct)).
  { unfold working_substring. rewrite Hf.
    now destruct (contains "[" adduct), (bracket_content adduct). }
  split; [exact Hf|]. split; [|split; [exact Hw|]].
  - intros w Hc. unfold bracket_content in Hc.
    destruct (after_first "[" adduct) as [t|] eqn:Ea; [|discriminate].
    destruct (after_first_split _ _ Ea) as (pre & -> & Hpre).
    destruct (before_last_split _ _ Hc) as (post & -> & Hpost).
    now exists pre, post.
  - rewrite PyFacts.get_ions_from_adduct_spec, Hw.
    destruct (contains "[" adduct).
    + destruct (bracket_content adduct) as [w|].
      * rewrite PyFacts.ions_from_content_spec.
        split; [|intros [_ H]; discriminate H].
        destruct (Re.findall re_parent_mass w) as [|m [|m' ms]];
          discriminate.
      * easy.
    + rewrite PyFacts.ions_from_content_spec.
      split; [|intros [H _]; discriminate H].
      destruct (Re.findall re_parent_mass adduct) as [|m [|m' ms]];
        discriminate.
Qed.

Lemma sign_not_alnum (c : ascii) : is_sign c = true -> is_alnum c = false.
Proof.
  intros H. destruct (PyFacts.is_sign_cases c H); subst; reflexivity.
Qed.

(** The scan of the ion pattern cannot step over a sign: whatever was
    matched before it is alphanumeric. *)
Lemma scan_ions_complete (sign : ascii) (run rest : str) :
  is_sign sign = true ->
  run <> [] -> forallb is_alnum run = true ->
  match rest with c :: _ => is_alnum c = false | [] => True end ->
  forall pre i skip,
    forallb is_alnum (firstn skip (pre ++ sign :: run ++ rest)) = true ->
    In [sign :: run] (Re.scan re_ions i (pre ++ sign :: run ++ rest) skip).
Proof.
  intros Hs Hne Hrun Hrest.
  induction pre as [|c pre IH]; intros i skip Hskip.
  - destruct skip as [|n].
    + cbn [app Re.scan]. rewrite ions_match_at.
      destruct run as [|d run]; [congruence|]. cbn [app].
      cbn [forallb] in Hrun. apply andb_true_iff in Hrun.
      destruct Hrun as [Hd Hrun]. rewrite Hs, Hd. cbn [andb Re.groups].
      destruct (PyFacts.take_while_app is_alnum run rest Hrun Hrest)
        as [-> _].
      now left.
    + cbn in Hskip. rewrite (sign_not_alnum _ Hs) in Hskip. discriminate.
  - destruct skip as [|n].
    + cbn [app Re.scan]. rewrite ions_match_at.
      destruct (pre ++ sign :: run ++ rest) as [|d s2] eqn:E.
      { destruct pre; discriminate E. }
      destruct (is_sign c && is_alnum d) eqn:Ecd.
      * right. cbn [Re.pos].
        replace (S (S i) + length (take_while is_alnum s2) - i - 1)
          with (S (length (take_while is_alnum s2))) by lia.
        apply IH. cbn [firstn forallb].
        apply andb_true_iff in Ecd. destruct Ecd as [_ ->].
        now rewrite firstn_take_while, take_while_all.
      * now apply IH.
    + cbn [app Re.scan]. apply IH.
      cbn [app firstn forallb] in Hskip. apply andb_true_iff in Hskip.
      exact (proj2 Hskip).
Qed.

Lemma scan_ions_complete_findall
      (pre : str) (sign : ascii) (run rest : str) :
  is_sign sign = true ->
  run <> [] -> forallb is_alnum run = true ->
  match rest with c :: _ => is_alnum c = false | [] => True end ->
  In (sign :: run) (Re.findall re_ions (pre ++ sign :: run ++ rest)).
Proof.
  intros Hs Hne Hrun Hrest. unfold Re.findall.
  apply in_map_iff. exists [sign :: run]. split; [reflexivity|].
  now apply scan_ions_complete.
Qed.

(** X20.  No signed alphanumeric run is left out: a sign followed by
    alphanumeric characters is extracted as an ion token that spans
    the whole run, wherever it stands in the string. *)
Theorem ion_tokens_complete (pre : str) (sign : ascii) (run rest : str) :
  is_sign sign = true ->
  run <> [] -> forallb is_alnum run = true ->
  match rest with c :: _ => is_alnum c = false | [] => True end ->
  In (sign :: run) (Re.findall re_ions (pre ++ sign :: run ++ rest)).
Proof. apply scan_ions_complete_findall. Qed.

Lemma parent_shape_alnum (pm : str) :
  parent_shape pm -> pm <> [] /\ forallb is_alnum pm = true.
Proof.
  intros [|d Hd]; [easy|]. split; [discriminate|].
  cbn. now rewrite (is_digit_alnum _ Hd).
Qed.

Lemma parent_token_formula (sign : ascii) (pm : str) :
  parent_shape pm -> token_formula (sign :: pm) = py "M".
Proof.
  intros [|d Hd]; [reflexivity|].
  unfold token_formula. cbn. now rewrite Hd.
Qed.

Section MoreEntry.

Context {F : Type} {arith : PyArith F}.
Variable Formula_mass : str -> option F.
Variable ELECTRTON_MASS : F.

#[local] Notation "'entry'" :=
  (get_multiplier_and_mass_from_adduct Formula_mass ELECTRTON_MASS).

(** One turn of the mass loop on a normalised token whose formula is
    recognised, whose count [int] takes and whose count fits a
    float. *)
Lemma get_mass_of_ion_loop_step (t : str) (rest : list str) (acc : F) :
  ion_token t = true ->
  Formula_mass (token_formula t) <> None ->
  (count_length t <= int_max_str_digits)%Z ->
  fits_float (signed_count t) = true ->
  get_mass_of_ion_loop Formula_mass acc (normalise_token t :: rest)
  = get_mass_of_ion_loop Formula_mass (add_token Formula_mass acc t) rest.
Proof.
  intros Ht Hf Hlen Hfit. destruct t as [|sign body]; [discriminate|].
  destruct (ion_token_parts _ _ Ht) as (Hs & Hne & Hal).
  destruct (split_body_plain Hne Hal) as [Hc _].
  cbn [get_mass_of_ion_loop]. rewrite (split_ion_normalised _ _ Ht).
  unfold add_token, token_mass. unfold token_formula in *. cbn [tl] in *.
  destruct (Formula_mass (expand (snd (split_body body)))) as [am|] eqn:E;
    [|congruence].
  unfold bind at 1, ret at 1. rewrite E.
  rewrite (int_of_number_normalised _ Hc).
  unfold count_length in Hlen. cbn [tl] in Hlen.
  apply Z.leb_le in Hlen. rewrite Hlen. unfold bind at 1, ret at 1.
  unfold int_times_float. cbn [signed_count] in Hfit. rewrite Hfit.
  unfold bind at 1, ret at 1. cbn [signed_count].
  now destruct (get_mass_of_ion_loop _ _ rest).
Qed.

Lemma get_mass_of_ion_loop_prefix (pre : list str) :
  forallb ion_token pre = true ->
  (forall x, In x pre ->
     Formula_mass (token_formula x) <> None
     /\ (count_length x <= int_max_str_digits)%Z
     /\ fits_float (signed_count x) = true) ->
  forall rest acc,
    get_mass_of_ion_loop Formula_mass acc (map normalise_token pre ++ rest)
    = get_mass_of_ion_loop Formula_mass
        (fold_left (add_token Formula_mass) pre acc) rest.
Proof.
  induction pre as [|t pre IH]; intros Hall Hgood rest acc; [reflexivity|].
  cbn in Hall. apply andb_true_iff in Hall. destruct Hall as [Ht Hall].
  destruct (Hgood t (or_introl eq_refl)) as (Hf & Hlen & Hfit).
  cbn [map app fold_left].
  rewrite get_mass_of_ion_loop_step by assumption.
  apply IH; [exact Hall|]. intros x Hx. apply Hgood. now right.
Qed.

(** X8.  When every formula is recognised, no count has more digits
    than [int] takes and every count fits a float, [get_mass_of_ion]
    logs nothing and returns the sum of the signed counts times the
    masses, added one by one from the float of 0 in the order of the
    list. *)
Theorem get_mass_of_ion_sum (ions : list str) :
  forallb ion_token ions = true ->
  (forall x, In x ions ->
     Formula_mass (token_formula x) <> None
     /\ (count_length x <= int_max_str_digits)%Z
     /\ fits_float (signed_count x) = true) ->
  get_mass_of_ion Formula_mass (map normalise_token ions)
  = ([], Ret (Some (fold_left (add_token Formula_mass) ions
                              (float_of_int 0)))).
Proof.
  intros Hall Hgood. unfold get_mass_of_ion.
  rewrite <- (app_nil_r (map normalise_token ions)).
  now rewrite get_mass_of_ion_loop_prefix.
Qed.

(** X9.  At the first unrecognised formula [get_mass_of_ion] stops,
    the tokens before it having recognised formulas and counts that
    [int] takes and that fit a float: it returns [None] with one
    warning, which names that formula; what comes after it in the
    list is not looked at. *)
Theorem get_mass_of_ion_first_unrecognised (pre : list str) (t : str)
        (post : list str) :
  forallb ion_token pre = true ->
  (forall x, In x pre ->
     Formula_mass (token_formula x) <> None
     /\ (count_length x <= int_max_str_digits)%Z
     /\ fits_float (signed_count x) = true) ->
  ion_token t = true ->
  Formula_mass (token_formula t) = None ->
  get_mass_of_ion Formula_mass (map normalise_token pre ++ normalise_token t :: post)
  = ([Warn_formula (token_formula t)], Ret None).
Proof.
  intros Hall Hgood Ht Hbad. unfold get_mass_of_ion.
  rewrite get_mass_of_ion_loop_prefix by assumption.
  destruct t as [|sign body]; [discriminate|].
  cbn [get_mass_of_ion_loop]. rewrite (split_ion_normalised _ _ Ht).
  unfold token_formula in *. cbn [tl] in *.
  unfold bind at 1, ret at 1. now rewrite Hbad.
Qed.

Lemma int_of_number_log (n : number) : log (int_of_number n) = [].
Proof.
  destruct n as [ds|z]; [|reflexivity]. cbn [int_of_number].
  unfold int_of_str.
  now destruct (match ds with [] => None | _ :: _ => _ end).
Qed.

(** Whatever the list, the mass loop logs nothing when it returns a
    sum, and one warning of an unrecognised formula when it returns
    [None]. *)
Lemma get_mass_of_ion_loop_log (ions : list str) :
  forall acc l r,
    get_mass_of_ion_loop Formula_mass acc ions = (l, Ret r) ->
    match r with
    | Some _ => l = []
    | None => exists ion, l = [Warn_formula ion]
    end.
Proof.
  induction ions as [|t ions IH]; intros acc l r.
  { cbn. now intros [= <- <-]. }
  cbn [get_mass_of_ion_loop]. intros H. apply bind_ret_inv in H.
  destruct H as (l1 & [[sg n] ident] & l2 & Hsplit & H & ->).
  assert (l1 = []) as ->.
  { pose proof (split_ion_log t) as Hl. now rewrite Hsplit in Hl. }
  cbn [app]. destruct (Formula_mass ident) as [am|].
  - apply bind_ret_inv in H. destruct H as (l3 & z & l4 & Hz & H & ->).
    assert (l3 = []) as ->.
    { pose proof (int_of_number_log n) as Hl. now rewrite Hz in Hl. }
    apply bind_ret_inv in H. destruct H as (l5 & x & l6 & Hx & H & ->).
    assert (l5 = []) as ->.
    { unfold int_times_float in Hx. destruct (fits_float _); [|discriminate].
      now injection Hx. }
    cbn [app]. exact (IH _ _ _ H).
  - cbn in H. injection H as <- <-. now exists ident.
Qed.

(** X10.  A successful call logs nothing, or only the warning of a parent
    mass found several times. *)
Theorem entry_success_log
        (adduct : str) (l : list warning) (mult corr : F) :
  entry adduct = (l, Ret (Some mult, Some corr)) ->
  l = []
  \/ exists w n,
       working_substring adduct = Some w
       /\ 2 <= n /\ n = length (Re.findall re_parent_mass w)
       /\ l = [Warn_parent_mass n w].
Proof.
  rewrite get_multiplier_and_mass_from_adduct_spec.
  destruct (Re.findall re_charge adduct) as [|m [|m' ms]]; try discriminate.
  destruct (working_substring adduct) as [w|]; [|discriminate].
  unfold parent_warning.
  destruct (Re.findall re_parent_mass w) as [|pm pms] eqn:E; [discriminate|].
  destruct (get_mass_of_ion _ _) as [lm [[sum|]|e]] eqn:Em; try discriminate.
  apply get_mass_of_ion_loop_log in Em. subst lm. rewrite app_nil_r.
  intros [= <- _]. destruct pms as [|pm' pms]; [now left|].
  right. exists w, (length (pm :: pm' :: pms)).
  split; [reflexivity|]. split; [cbn; lia|].
  split; [now rewrite E|reflexivity].
Qed.

(** X11.  A null result is never silent: the log then holds the warning of
    the charge, or that of the brackets, or that of an unrecognised
    formula, the last one after the warning of a repeated parent mass
    when there is one. *)
Theorem entry_null_log (adduct : str) (l : list warning) :
  entry adduct = (l, Ret (None, None)) ->
  (exists n, n <> 1 /\ l = [Warn_charge_count n adduct])
  \/ l = [Warn_brackets adduct]
  \/ (exists w ion,
        working_substring adduct = Some w
        /\ l = parent_warning w ++ [Warn_formula ion]).
Proof.
  rewrite get_multiplier_and_mass_from_adduct_spec.
  destruct (Re.findall re_charge adduct) as [|m [|m' ms]].
  - intros [= <-]. left. now exists 0.
  - destruct (working_substring adduct) as [w|];
      [|intros [= <-]; right; now left].
    destruct (Re.findall re_parent_mass w) as [|pm pms] eqn:E; [discriminate|].
    destruct (get_mass_of_ion _ _) as [lm [[sum|]|e]] eqn:Em; try discriminate.
    + unfold finish. now destruct (Z.abs (charge_value m) =? 0)%Z.
    + apply get_mass_of_ion_loop_log in Em. destruct Em as [ion ->].
      intros [= <-]. right. right. now exists w, ion.
  - intros [= <-]. left. exists (S (S (length ms))). split; [lia|reflexivity].
Qed.


(** X18.  The result depends on the adduct only through what the charge
    pattern finds in it and the string between its brackets; when the
    charge is found and the brackets are, so do the warnings. *)
Theorem result_depends_on_charge_and_content (a1 a2 : str) :
  Re.findall re_charge a1 = Re.findall re_charge a2 ->
  working_substring a1 = working_substring a2 ->
  result (entry a1) = result (entry a2)
  /\ (length (Re.findall re_charge a1) = 1 ->
      working_substring a1 <> None ->
      entry a1 = entry a2).
Proof.
  intros Hc Hw. rewrite !get_multiplier_and_mass_from_adduct_spec.
  rewrite <- Hc, <- Hw.
  destruct (Re.findall re_charge a1) as [|m [|m' ms]]; cbn;
    try (split; [reflexivity|intros; discriminate || lia]).
  destruct (working_substring a1) as [w|]; [|split; [reflexivity|easy]].
  split; reflexivity.
Qed.

(** X21.  A parent-mass token that follows a sign is extracted as an ion as
    well, and its formula is M: such an adduct never resolves when M
    is not a formula the mass table knows. *)
Theorem parent_after_sign_is_an_ion
        (adduct w pre : str) (sign : ascii) (pm rest : str) :
  working_substring adduct = Some w ->
  w = pre ++ sign :: pm ++ rest ->
  is_sign sign = true ->
  parent_shape pm ->
  match rest with c :: _ => is_alnum c = false | [] => True end ->
  In (sign :: pm) (Re.findall re_ions w)
  /\ token_formula (sign :: pm) = py "M"
  /\ (Formula_mass (py "M") = None ->
      forall l r, entry adduct = (l, Ret r) -> r = (None, None)).
Proof.
  intros Hw -> Hs Hpm Hrest.
  destruct (parent_shape_alnum Hpm) as [Hne Hal].
  assert (Hin : In (sign :: pm)
                   (Re.findall re_ions (pre ++ sign :: pm ++ rest)))
    by now apply scan_ions_complete_findall.
  split; [exact Hin|]. split; [now apply parent_token_formula|].
  intros HM l r. rewrite get_multiplier_and_mass_from_adduct_spec, Hw.
  destruct (Re.findall re_charge adduct) as [|m [|m' ms]];
    try (now intros [= _ <-]).
  destruct (Re.findall re_parent_mass _) as [|p0 pms]; [discriminate|].
  destruct (get_mass_of_ion _ _) as [lm [[sum|]|e]] eqn:E;
    [|now intros [= _ <-]|discriminate].
  exfalso. revert E. apply get_mass_of_ion_loop_all_or_nothing.
  - apply forallb_forall. intros x Hx.
    now apply PyFacts.findall_ion_token in Hx.
  - exists (sign :: pm). split; [exact Hin|].
    now rewrite parent_token_formula.
Qed.

End MoreEntry.

Lemma parsed_parent_range
      (adduct : str) (l : list warning) (p : Z) (ions : list str) :
  get_ions_from_adduct adduct = (l, Ret (Some p, Some ions)) ->
  (0 <= p <= 9)%Z.
Proof.
  rewrite PyFacts.get_ions_from_adduct_spec.
  destruct (working_substring adduct) as [w|]; [|discriminate].
  rewrite PyFacts.ions_from_content_spec.
  pose proof (PyFacts.findall_parent_shape w) as Hshape.
  destruct (Re.findall re_parent_mass w) as [|m ms]; [discriminate|].
  assert (Hm : parent_shape m) by (apply Hshape; now left).
  intros H. assert (p = parent_value m) as -> by (destruct ms; now injection H).
  now apply parent_value_range.
Qed.

(** In binary64, for a digit [a] that is not 0 and a digit [p], the
    product [(1/a) * p] is the quotient [p / a] but for ten pairs. *)
Lemma binary64_multiplier_quotient (a p : Z) :
  (1 <= a <= 9)%Z -> (0 <= p <= 9)%Z ->
  (float_of_int 1 / float_of_int a * float_of_int p
   = float_of_int p / float_of_int a)%float
  <-> inexact_multiplier p a = false.
Proof.
  intros Ha Hp.
  assert (Ea : (a = 1 \/ a = 2 \/ a = 3 \/ a = 4 \/ a = 5 \/ a = 6 \/ a = 7
                \/ a = 8 \/ a = 9)%Z) by lia.
  assert (Ep : (p = 0 \/ p = 1 \/ p = 2 \/ p = 3 \/ p = 4 \/ p = 5 \/ p = 6
                \/ p = 7 \/ p = 8 \/ p = 9)%Z) by lia.
  repeat (destruct Ea as [->|Ea]; [|]); try subst a;
    repeat (destruct Ep as [->|Ep]; [|]); try subst p;
    vm_compute;
    (split; intros H;
     first [ reflexivity
           | discriminate H
           | match type of H with
             | ?x = ?y =>
                 apply (f_equal (fun z => PrimFloat.eqb z y)) in H;
                 vm_compute in H; discriminate H
             end ]).
Qed.

(** X19.  The multiplier a successful call returns is, in binary64, the
    quotient of the parent multiplier by the magnitude of the charge,
    except for ten pairs of digits, where it is not. *)
Theorem binary64_multiplier_is_quotient
        (Formula_mass : str -> option float) (ELECTRTON_MASS : float)
        (adduct : str) (l : list warning) (mult corr : float) :
  get_multiplier_and_mass_from_adduct Formula_mass ELECTRTON_MASS adduct
  = (l, Ret (Some mult, Some corr)) ->
  exists c p ions l1 l2,
    get_charge_of_adduct adduct = (l1, Ret (Some c))
    /\ get_ions_from_adduct adduct = (l2, Ret (Some p, Some ions))
    /\ (mult = (float_of_int p / float_of_int (Z.abs c))%float
        <-> inexact_multiplier p (Z.abs c) = false).
Proof.
  intros H. apply entry_success in H.
  destruct H as (c & p & ions & sum & l1 & l2 & l3
                 & H1 & Hc & Hr & H2 & _ & -> & _).
  exists c, p, ions, l1, l2. split; [exact H1|]. split; [exact H2|].
  pose proof (parsed_parent_range _ H2) as Hp.
  apply binary64_multiplier_quotient; lia.
Qed.

End More.

(* ================================================================= *)
(** ** The further properties at concrete inputs *)

Lemma split_ion_error_behaviour_witness :
  result (split_ion (py "H2O")) = Raise AssertionError.
Proof.
  apply (proj2 (More.split_ion_error_behaviour (py "H2O"))).
  right. exists "H"%char, (py "2O"). repeat split.
Defined.

Lemma split_ion_round_trip_witness :
  is_sign "+" = true
  /\ is_digit "H" = false
  /\ (py "12" <> [] /\ forallb is_digit (py "12") = true
      /\ forallb is_dot (py "H2O") = true
      /\ exists tail,
           py "+12H2O" = "+"%char :: py "12" ++ py "H2O" ++ tail
           /\ match tail with c :: _ => c = newline | [] => True end).
Proof.
  exact (@More.split_ion_round_trip (py "+12H2O") [] "+"%char
           (NumStr (py "12")) (py "H2O") eq_refl).
Defined.

Lemma replace_abbreviations_idempotent_witness :
  replace_abbreviations [py "+1CH2O2"; py "-2H"]
  = ([], Ret [py "+1CH2O2"; py "-2H"]).
Proof.
  exact (@More.replace_abbreviations_idempotent [py "+FA"; py "-2H"]
           [py "+1CH2O2"; py "-2H"] eq_refl eq_refl).
Defined.

Lemma omitted_count_is_one_witness :
  replace_abbreviations [py "-H2O"; py "+H"]
  = replace_abbreviations [py "-H2O"; py "+1H"].
Proof.
  exact (@More.omitted_count_is_one "+"%char (py "H") [py "-H2O"] []
           eq_refl eq_refl).
Defined.

Lemma get_mass_of_ion_sum_witness :
  get_mass_of_ion sample_Formula_mass [py "+1H"; py "-1H2O"]
  = ([], Ret (Some (0 + 1 * 1.00782503223 + (-1) * 18.010564683)%float)).
Proof.
  refine (@More.get_mass_of_ion_sum float binary64 sample_Formula_mass
            [py "+H"; py "-H2O"] eq_refl _).
  intros x [<-|[<-|[]]]; (split; [discriminate|split; [|reflexivity]]);
    vm_compute; discriminate.
Defined.

Lemma get_mass_of_ion_first_unrecognised_witness :
  get_mass_of_ion sample_Formula_mass [py "+1H"; py "+1Qx"; py "+1Na"]
  = ([Warn_formula (py "Qx")], Ret None).
Proof.
  refine (@More.get_mass_of_ion_first_unrecognised float binary64
            sample_Formula_mass [py "+H"] (py "+Qx") [py "+1Na"]
            eq_refl _ eq_refl eq_refl).
  intros x [<-|[]]. split; [discriminate|split; [|reflexivity]].
  vm_compute. discriminate.
Defined.

Lemma entry_success_log_witness :
  log (sample_run (py "[M+H]+")) = []
  \/ exists w n,
       working_substring (py "[M+H]+") = Some w
       /\ 2 <= n /\ n = length (Re.findall re_parent_mass w)
       /\ log (sample_run (py "[M+H]+")) = [Warn_parent_mass n w].
Proof.
  refine (@More.entry_success_log float binary64 sample_Formula_mass
            sample_ELECTRON_MASS (py "[M+H]+") _ _ _ _).
  reflexivity.
Defined.

Lemma entry_null_log_witness :
  (exists n, n <> 1 /\ [Warn_formula (py "Qx")]
                       = [Warn_charge_count n (py "[M+Qx]+")])
  \/ [Warn_formula (py "Qx")] = [Warn_brackets (py "[M+Qx]+")]
  \/ (exists w ion,
        working_substring (py "[M+Qx]+") = Some w
        /\ [Warn_formula (py "Qx")] = parent_warning w ++ [Warn_formula ion]).
Proof.
  exact (@More.entry_null_log float binary64 sample_Formula_mass
           sample_ELECTRON_MASS (py "[M+Qx]+") [Warn_formula (py "Qx")]
           eq_refl).
Defined.

Lemma entry_returns_pair_or_null_witness :
  (None, None) = (@None float, @None float)
  \/ exists mult corr : float, (None, None) = (Some mult, Some corr).
Proof.
  exact (@entry_returns_pair_or_null float binary64 sample_Formula_mass
           sample_ELECTRON_MASS (py "[M+H]")
           [Warn_charge_count 0 (py "[M+H]")] (None, None) eq_refl).
Defined.

Lemma entry_raise_cases_witness :
  (IndexError = IndexError
   /\ exists w, working_substring (py "[H]+") = Some w
                /\ Re.findall re_parent_mass w = [])
  \/ (IndexError = ZeroDivisionError
      /\ get_charge_of_adduct (py "[H]+") = ([], Ret (Some 0%Z)))
  \/ (exists w t,
        working_substring (py "[H]+") = Some w
        /\ In t (Re.findall re_ions w)
        /\ ((IndexError = ValueError
             /\ (int_max_str_digits < count_length t)%Z)
            \/ (IndexError = OverflowError
                /\ (count_length t <= int_max_str_digits)%Z
                /\ fits_float (F := float) (signed_count t) = false))).
Proof.
  exact (@entry_raise_cases float binary64 sample_Formula_mass
           sample_ELECTRON_MASS (py "[H]+") [Warn_parent_mass 0 (py "H")]
           IndexError eq_refl).
Defined.

Lemma unrecognised_ion_never_resolves_witness :
  (@None float, @None float) = (None, None).
Proof.
  exact (@unrecognised_ion_never_resolves float binary64 sample_Formula_mass
           sample_ELECTRON_MASS (py "[M+H+Qx]+") (py "M+H+Qx") (py "+Qx")
           eq_refl (or_intror (or_introl eq_refl)) eq_refl
           [Warn_formula (py "Qx")] (None, None) eq_refl).
Defined.

Lemma brackets_on_one_line_witness :
  Re.findall re_brackets (py "[M+H][M-H]+")
  = match bracket_content (py "[M+H][M-H]+") with
    | Some w => [w]
    | None => []
    end.
Proof.
  exact (proj1 (More.brackets_on_one_line (py "[M+H][M-H]+") eq_refl)).
Defined.


Lemma result_depends_on_charge_and_content_witness :
  result (sample_run (py "see [M+H]+ (pos)")) = result (sample_run (py "[M+H]+")).
Proof.
  exact (proj1 (@More.result_depends_on_charge_and_content float binary64
                  sample_Formula_mass sample_ELECTRON_MASS
                  (py "see [M+H]+ (pos)") (py "[M+H]+") eq_refl eq_refl)).
Defined.

Lemma binary64_multiplier_is_quotient_witness :
  exists c p ions l1 l2,
    get_charge_of_adduct (py "[3M]5+") = (l1, Ret (Some c))
    /\ get_ions_from_adduct (py "[3M]5+") = (l2, Ret (Some p, Some ions))
    /\ ((float_of_int 1 / float_of_int 5 * float_of_int 3)%float
        = (float_of_int p / float_of_int (Z.abs c))%float
        <-> inexact_multiplier p (Z.abs c) = false).
Proof.
  refine (@More.binary64_multiplier_is_quotient sample_Formula_mass
            sample_ELECTRON_MASS (py "[3M]5+") [] _ _ _).
  reflexivity.
Defined.

Lemma ion_tokens_complete_witness :
  In (py "-H2O") (Re.findall re_ions (py "2M+Na-H2O] x")).
Proof.
  refine (@More.ion_tokens_complete (py "2M+Na") "-"%char (py "H2O")
            (py "] x") eq_refl _ eq_refl eq_refl).
  discriminate.
Defined.

Lemma parent_after_sign_is_an_ion_witness :
  In (py "+2M") (Re.findall re_ions (py "H+2M"))
  /\ token_formula (py "+2M") = py "M"
  /\ (sample_Formula_mass (py "M") = None ->
      forall l r, sample_run (py "[H+2M]+") = (l, Ret r) -> r = (None, None)).
Proof.
  exact (@More.parent_after_sign_is_an_ion float binary64 sample_Formula_mass
           sample_ELECTRON_MASS (py "[H+2M]+") (py "H+2M") (py "H") "+"%char
           (py "2M") [] eq_refl eq_refl eq_refl
           (parent_digit_M "2" eq_refl) I).
Defined.
